(** * Audio utilities for the Gemini Live API: a shallow embedding

    Source: [gemini-live-api/scripts/audio_utils.py].

    Conventions of the embedding.
    - A Python exception is a value of [exn]; a call that may raise returns
      a [result].
    - A [bytes] object is a [list Z] of values in [0, 256); a [str] is a
      Rocq [string] whose characters are code points (a code point above
      127 is a non-ASCII character).
    - An [int16] sample is a [Z] in [-32768, 32767]; numpy stores it in two
      bytes, low byte first (the module's comments fix little-endian).
    - A finite floating-point number is the rational it denotes; every
      inexact operation rounds its exact result to the nearest number of the
      format, ties to even ([fround]).  NaN and infinities are outside the
      model: where the Python code turns an overflow into an exception the
      model raises it, and array values are assumed finite. *)

From Stdlib Require Import ZArith List String Ascii Bool Lia.
From Stdlib Require Import QArith Qround Qabs Qpower Qreduction Lqa.
From Stdlib Require Import Floats.SpecFloat.
Import ListNotations.

Local Open Scope Z_scope.

(** ** Exceptions *)

Inductive exn : Set :=
| ValueError          (* also the base class of binascii.Error *)
| BinasciiError       (* binascii.Error, raised by base64.b64decode *)
| ZeroDivisionError
| OverflowError.

Inductive result (A : Type) : Type :=
| Ok (a : A)
| Raise (e : exn).

Arguments Ok {A} a.
Arguments Raise {A} e.

Definition bind {A B : Type} (r : result A) (k : A -> result B) : result B :=
  match r with
  | Ok a => k a
  | Raise e => Raise e
  end.

Notation "x <- r ;; k" := (bind r (fun x => k))
  (at level 61, r at next level, right associativity).

Definition raises {A : Type} (r : result A) : Prop := exists e, r = Raise e.

(** ** Audio format constants *)

Definition INPUT_SAMPLE_RATE : Z := 16000.
Definition OUTPUT_SAMPLE_RATE : Z := 24000.
Definition CHANNELS : Z := 1.
Definition SAMPLE_WIDTH : Z := 2.

(** ** The base64 codec of the Python library

    [base64.b64encode] and [base64.b64decode] are library code.  The encoder
    follows RFC 4648 section 4 group by group; the decoder is the state
    machine of [binascii.a2b_base64] in its default, non-strict mode, which
    is what [b64decode(s)] runs with [validate=False]. *)

Module Base64.

Definition alphabet : list ascii :=
  list_ascii_of_string
    "ABCDEFGHIJKLMNOPQRSTUVWXYZabcdefghijklmnopqrstuvwxyz0123456789+/".

Definition BASE64_PAD : ascii := "="%char.

Definition code (c : ascii) : Z := Z.of_N (N_of_ascii c).

(** [table_b2a_base64[i]] for a sextet [i]. *)
Definition table_b2a_base64 (i : Z) : ascii :=
  nth (Z.to_nat i) alphabet BASE64_PAD.

(** [table_a2b_base64[c]]: the sextet of an alphabet character, and a value
    of at least 64 for every other character. *)
Definition table_a2b_base64 (c : ascii) : Z :=
  let n := code c in
  if (65 <=? n) && (n <=? 90) then n - 65
  else if (97 <=? n) && (n <=? 122) then n - 71
  else if (48 <=? n) && (n <=? 57) then n + 4
  else if n =? 43 then 62
  else if n =? 47 then 63
  else 255.

Definition is_pad (c : ascii) : bool := code c =? code BASE64_PAD.

Definition is_alpha (c : ascii) : bool :=
  negb (is_pad c) && (table_a2b_base64 c <? 64).

Definition sextet0 (b0 : Z) : Z := Z.shiftr b0 2.
Definition sextet1 (b0 b1 : Z) : Z :=
  Z.lor (Z.shiftl (Z.land b0 3) 4) (Z.shiftr b1 4).
Definition sextet2 (b1 b2 : Z) : Z :=
  Z.lor (Z.shiftl (Z.land b1 15) 2) (Z.shiftr b2 6).
Definition sextet3 (b2 : Z) : Z := Z.land b2 63.

(** [binascii.b2a_base64(data, newline=False)]. *)
Fixpoint b2a_base64 (bs : list Z) : string :=
  match bs with
  | [] => EmptyString
  | [b0] =>
      String (table_b2a_base64 (sextet0 b0))
        (String (table_b2a_base64 (sextet1 b0 0))
           (String BASE64_PAD (String BASE64_PAD EmptyString)))
  | [b0; b1] =>
      String (table_b2a_base64 (sextet0 b0))
        (String (table_b2a_base64 (sextet1 b0 b1))
           (String (table_b2a_base64 (sextet2 b1 0))
              (String BASE64_PAD EmptyString)))
  | b0 :: b1 :: b2 :: rest =>
      String (table_b2a_base64 (sextet0 b0))
        (String (table_b2a_base64 (sextet1 b0 b1))
           (String (table_b2a_base64 (sextet2 b1 b2))
              (String (table_b2a_base64 (sextet3 b2)) (b2a_base64 rest))))
  end.

(** An [unsigned char] store. *)
Definition uchar (z : Z) : Z := Z.land z 255.

(** The loop of [binascii.a2b_base64] with [strict_mode = 0].  [quad_pos]
    counts the sextets of the current quad, [leftchar] holds the bits not
    yet written, [pads] counts the pad characters seen since the last
    sextet, [bin] is the output so far.  Returning [Ok bin] from inside the
    loop is the C code's [goto done]. *)
Fixpoint a2b_loop (s : string) (quad_pos leftchar pads : Z) (bin : list Z)
  : result (list Z) :=
  match s with
  | EmptyString =>
      if quad_pos =? 0 then Ok bin else Raise BinasciiError
  | String c rest =>
      if is_pad c then
        if 2 <=? quad_pos then
          if 4 <=? quad_pos + (pads + 1) then Ok bin
          else a2b_loop rest quad_pos leftchar (pads + 1) bin
        else a2b_loop rest quad_pos leftchar pads bin
      else
        let this_ch := table_a2b_base64 c in
        if 64 <=? this_ch then a2b_loop rest quad_pos leftchar pads bin
        else if quad_pos =? 0 then
          a2b_loop rest 1 this_ch 0 bin
        else if quad_pos =? 1 then
          a2b_loop rest 2 (Z.land this_ch 15) 0
            (bin ++ [uchar (Z.lor (Z.shiftl leftchar 2) (Z.shiftr this_ch 4))])
        else if quad_pos =? 2 then
          a2b_loop rest 3 (Z.land this_ch 3) 0
            (bin ++ [uchar (Z.lor (Z.shiftl leftchar 4) (Z.shiftr this_ch 2))])
        else
          a2b_loop rest 0 0 0
            (bin ++ [uchar (Z.lor (Z.shiftl leftchar 6) this_ch)])
  end.

Definition a2b_base64 (s : string) : result (list Z) := a2b_loop s 0 0 0 [].

Fixpoint is_ascii (s : string) : bool :=
  match s with
  | EmptyString => true
  | String c rest => (code c <? 128) && is_ascii rest
  end.

(** [base64.b64encode(data).decode('utf-8')]: the output is ASCII. *)
Definition b64encode (bs : list Z) : string := b2a_base64 bs.

(** [base64.b64decode(s)] on a [str]: the string is first encoded as ASCII
    ([ValueError] on a non-ASCII character), then decoded. *)
Definition b64decode (s : string) : result (list Z) :=
  if is_ascii s then a2b_base64 s else Raise ValueError.

(** *** Validity in the sense of RFC 4648

    The spec's words "valid base64": quads of alphabet characters, the last
    quad possibly ending in one or two pad characters. *)
Fixpoint valid_base64 (s : string) : bool :=
  match s with
  | EmptyString => true
  | String a (String b (String c (String d rest))) =>
      is_alpha a && is_alpha b &&
      match rest with
      | EmptyString =>
          (is_alpha c && (is_alpha d || is_pad d)) || (is_pad c && is_pad d)
      | _ => is_alpha c && is_alpha d && valid_base64 rest
      end
  | _ => false
  end.

(** The bytes a valid string stands for (RFC 4648 section 4). *)
Fixpoint rfc4648_decode (s : string) : list Z :=
  match s with
  | String a (String b (String c (String d rest))) =>
      let va := table_a2b_base64 a in
      let vb := table_a2b_base64 b in
      let vc := table_a2b_base64 c in
      let vd := table_a2b_base64 d in
      let o0 := uchar (Z.lor (Z.shiftl va 2) (Z.shiftr vb 4)) in
      let o1 := uchar (Z.lor (Z.shiftl (Z.land vb 15) 4) (Z.shiftr vc 2)) in
      let o2 := uchar (Z.lor (Z.shiftl (Z.land vc 3) 6) vd) in
      if is_pad c then [o0]
      else if is_pad d then [o0; o1]
      else o0 :: o1 :: o2 :: rfc4648_decode rest
  | _ => []
  end.

End Base64.

(** ** numpy: int16 arrays and raw bytes *)

Definition is_int16 (v : Z) : Prop := -32768 <= v <= 32767.
Definition is_byte (b : Z) : Prop := 0 <= b < 256.

(** [ndarray.tobytes()] of an int16 array: two's complement, low byte
    first. *)
Definition int16_to_bytes (v : Z) : list Z :=
  let w := v mod 65536 in [w mod 256; w / 256].

Definition tobytes (a : list Z) : list Z := flat_map int16_to_bytes a.

Definition int16_of_bytes (lo hi : Z) : Z :=
  let w := lo + 256 * hi in
  if w <? 32768 then w else w - 65536.

Fixpoint pairs_to_int16 (bs : list Z) : list Z :=
  match bs with
  | lo :: hi :: rest => int16_of_bytes lo hi :: pairs_to_int16 rest
  | _ => []
  end.

(** [np.frombuffer(buf, dtype=np.int16)]: [ValueError] ("buffer size must be
    a multiple of element size") on a buffer of odd length. *)
Definition frombuffer_int16 (bs : list Z) : result (list Z) :=
  if Z.even (Z.of_nat (List.length bs)) then Ok (pairs_to_int16 bs)
  else Raise ValueError.

(** ** Transport codec *)

Definition encode_audio_to_base64 (audio_data : list Z) : string :=
  let audio_bytes := tobytes audio_data in
  Base64.b64encode audio_bytes.

Definition decode_base64_to_audio (base64_str : string) : result (list Z) :=
  audio_bytes <- Base64.b64decode base64_str ;;
  frombuffer_int16 audio_bytes.

(** ** Floating point: finite IEEE 754 numbers as rationals *)

Module Float.

Local Open Scope Q_scope.

Record format : Set := Format { prec : Z; emin : Z; emax : Z }.

(** numpy's [float32] and Python's [float] (numpy's [float64]). *)
Definition binary32 : format := Format 24 (-149) 128.
Definition binary64 : format := Format 53 (-1074) 1024.

Definition Qlt_bool (x y : Q) : bool := negb (Qle_bool y x).

(** [ilog2 q] is the integer [e] with [2^e <= q < 2^(e+1)], for [0 < q]. *)
Definition ilog2 (q : Q) : Z :=
  let e := (Z.log2 (Qnum q) - Z.log2 (Zpos (Qden q)))%Z in
  if Qle_bool (2 ^ e) q then e else (e - 1)%Z.

(** The exponent of the unit in the last place of a number of binade [e]:
    [prec] significant bits, subnormal below [emin + prec - 1]. *)
Definition fexp (f : format) (e : Z) : Z := Z.max (e - prec f + 1) (emin f).

(** The nearest integer, ties to the even one. *)
Definition round_half_even (z : Q) : Z :=
  let n := Qfloor z in
  match Qcompare (z - inject_Z n) (1 # 2) with
  | Lt => n
  | Gt => (n + 1)%Z
  | Eq => if Z.even n then n else (n + 1)%Z
  end.

Definition ulp (f : format) (q : Q) : Q := 2 ^ fexp f (ilog2 (Qabs q)).

(** Rounding to nearest, ties to even, with unbounded exponent range above:
    the caller tests [overflows]. *)
Definition fround (f : format) (q : Q) : Q :=
  if Qeq_bool q 0 then 0
  else Qred (inject_Z (round_half_even (q / ulp f q)) * ulp f q).

Definition overflows (f : format) (q : Q) : bool :=
  Qle_bool (2 ^ emax f) (Qabs q).

Definition fadd (f : format) (x y : Q) : Q := fround f (x + y).
Definition fsub (f : format) (x y : Q) : Q := fround f (x - y).
Definition fmul (f : format) (x y : Q) : Q := fround f (x * y).
Definition fdiv (f : format) (x y : Q) : Q := fround f (x / y).

(** Truncation toward zero: Python's [int(x)] and the C conversion behind
    [astype] of an integer type. *)
Definition trunc (q : Q) : Z :=
  if Qle_bool 0 q then Qfloor q else Qceiling q.

(** Python's [a / b] on two [int]s: the correctly rounded quotient. *)
Definition int_truediv (a b : Z) : result Q :=
  if (b =? 0)%Z then Raise ZeroDivisionError
  else
    let r := fround binary64 (inject_Z a / inject_Z b) in
    if overflows binary64 r then Raise OverflowError else Ok r.

(** The conversion of an [int] operand of a float operation. *)
Definition float_of_int (n : Z) : result Q :=
  let r := fround binary64 (inject_Z n) in
  if overflows binary64 r then Raise OverflowError else Ok r.

(** [int(x * n)] for a float [x] and an int [n]; a product that overflows is
    an infinity, which [int] refuses with [OverflowError]. *)
Definition int_of_float_mul_int (x : Q) (n : Z) : result Z :=
  y <- float_of_int n ;;
  let p := fmul binary64 x y in
  if overflows binary64 p then Raise OverflowError else Ok (trunc p).

End Float.

Import Float.

(** ** numpy arrays

    One-dimensional arrays of the element types the module handles:
    [float32] and [float64] (a float array with its format) and [int16]. *)

Inductive ndarray : Type :=
| FloatArr (f : format) (xs : list Q)
| Int16Arr (xs : list Z).

Definition len (a : ndarray) : Z :=
  match a with
  | FloatArr _ xs => Z.of_nat (List.length xs)
  | Int16Arr xs => Z.of_nat (List.length xs)
  end.

(** The values of an array as numbers. *)
Definition values (a : ndarray) : list Q :=
  match a with
  | FloatArr _ xs => xs
  | Int16Arr xs => map inject_Z xs
  end.

(** The float format an arithmetic operation with a Python scalar works in:
    the array's own for a float array, double precision for an integer
    array. *)
Definition float_format (a : ndarray) : format :=
  match a with
  | FloatArr f _ => f
  | Int16Arr _ => binary64
  end.

(** [np.clip(x, lo, hi)] is [minimum(maximum(x, lo), hi)]. *)
Definition clip (lo hi x : Q) : Q :=
  let y := if Qlt_bool x lo then lo else x in
  if Qlt_bool hi y then hi else y.

(** Two's complement wrap into int16. *)
Definition wrap_int16 (z : Z) : Z := (z + 32768) mod 65536 - 32768.

(** [astype(np.int16)] of a float: truncation toward zero.  For a value
    outside int16 the C conversion is not defined; numpy converts through a
    32-bit integer and keeps its low half, so that a value within int32
    wraps and a value beyond int32 gives 0. *)
Definition astype_int16 (x : Q) : Z :=
  let t := trunc x in
  if (- 2 ^ 31 <=? t) && (t <? 2 ^ 31) then wrap_int16 t else 0.

(** ** Sample format converters *)

Definition float32_to_int16 (audio_data : ndarray) : list Z :=
  let f := float_format audio_data in
  let clipped := map (clip (-1) 1) (values audio_data) in
  map (fun x => astype_int16 (fmul f x (inject_Z 32767))) clipped.

Definition int16_to_float32 (audio_data : list Z) : list Q :=
  map (fun v => fdiv binary32 (fround binary32 (inject_Z v)) (inject_Z 32768))
      audio_data.

(** ** Resampler *)

(** [np.arange(n)]. *)
Definition arange (n : Z) : list Z := map Z.of_nat (seq 0 (Z.to_nat n)).

(** [np.linspace(0, stop, num)] for an integer [stop]: [ValueError] on a
    negative [num]; [num] double-precision positions, the last one set to
    [stop] when [num > 1]. *)
Definition linspace (stop num : Z) : result (list Q) :=
  if num <? 0 then Raise ValueError
  else
    let div := num - 1 in
    let delta := fround binary64 (inject_Z stop) in
    let step := fdiv binary64 delta (inject_Z div) in
    let point (i : Z) : Q :=
      if (0 <? div) && (i =? div) then delta
      else if 0 <? div then
        if Qeq_bool step 0
        then fmul binary64 (fdiv binary64 (inject_Z i) (inject_Z div)) delta
        else fmul binary64 (inject_Z i) step
      else fmul binary64 (inject_Z i) delta in
    Ok (map point (arange num)).

(** One point of [np.interp]: [xj], [yj] is the last sample point not above
    [x]; [xs], [ys] are the sample points after it. *)
Fixpoint interp_from (x xj yj : Q) (xs ys : list Q) : Q :=
  match xs, ys with
  | x1 :: xs', y1 :: ys' =>
      if Qlt_bool x x1 then
        if Qeq_bool xj x then yj
        else
          let slope := fdiv binary64 (fsub binary64 y1 yj)
                                     (fsub binary64 x1 xj) in
          fadd binary64 (fmul binary64 slope (fsub binary64 x xj)) yj
      else interp_from x x1 y1 xs' ys'
  | _, _ => yj
  end.

Definition interp_at (xp fp : list Q) (x : Q) : Q :=
  match xp, fp with
  | x0 :: xs, y0 :: ys =>
      if Qlt_bool x x0 then y0 else interp_from x x0 y0 xs ys
  | _, _ => 0%Q
  end.

(** [np.interp(x, xp, fp)] for increasing [xp]: [ValueError] ("array of
    sample points is empty") when [xp] is empty, also for an empty [x]. *)
Definition interp (x xp fp : list Q) : result (list Q) :=
  match xp with
  | [] => Raise ValueError
  | _ :: _ =>
      if Nat.eqb (List.length fp) (List.length xp)
      then Ok (map (interp_at xp fp) x)
      else Raise ValueError
  end.

Definition resample_audio (audio_data : ndarray) (orig_sr target_sr : Z)
  : result ndarray :=
  if orig_sr =? target_sr then Ok audio_data
  else
    duration <- int_truediv (len audio_data) orig_sr ;;
    new_length <- int_of_float_mul_int duration target_sr ;;
    indices <- linspace (len audio_data - 1) new_length ;;
    out <- interp indices (map inject_Z (arange (len audio_data)))
                  (values audio_data) ;;
    Ok (FloatArr binary64 out).

(** ** Format pipeline *)

Definition convert_to_gemini_input_format
  (audio_data : ndarray) (current_sr : Z) (input_dtype : string)
  : result string :=
  audio_data <- (if negb (current_sr =? INPUT_SAMPLE_RATE)
                 then resample_audio audio_data current_sr INPUT_SAMPLE_RATE
                 else Ok audio_data) ;;
  let pcm :=
    if String.eqb input_dtype "float32" then float32_to_int16 audio_data
    else match audio_data with
         | Int16Arr xs => xs
         | FloatArr _ xs => map astype_int16 xs
         end in
  Ok (encode_audio_to_base64 pcm).

Definition convert_from_gemini_output_format
  (base64_str : string) (output_dtype : string) (target_sr : Z)
  : result ndarray :=
  audio_data <- decode_base64_to_audio base64_str ;;
  if negb (target_sr =? OUTPUT_SAMPLE_RATE) then
    let audio_float := FloatArr binary32 (int16_to_float32 audio_data) in
    audio_float <- resample_audio audio_float OUTPUT_SAMPLE_RATE target_sr ;;
    if String.eqb output_dtype "int16"
    then Ok (Int16Arr (float32_to_int16 audio_float))
    else Ok audio_float
  else if String.eqb output_dtype "float32"
  then Ok (FloatArr binary32 (int16_to_float32 audio_data))
  else Ok (Int16Arr audio_data).

(** ** Chunker *)

Section Chunker.

Context {A : Type}.

(** [range(0, stop, step)]: [ValueError] ("range() arg 3 must not be zero")
    on a zero step. *)
Definition range0 (stop step : Z) : result (list Z) :=
  if step =? 0 then Raise ValueError
  else if 0 <? step then
    Ok (map (fun k => Z.of_nat k * step)
            (seq 0 (Z.to_nat ((stop + step - 1) / step))))
  else
    Ok (map (fun k => Z.of_nat k * step)
            (seq 0 (Z.to_nat ((- stop - step - 1) / - step)))).

(** A bound of a Python slice, clamped into the sequence. *)
Definition slice_bound (n k : Z) : Z :=
  if k <? 0 then Z.max 0 (k + n) else Z.min k n.

(** [a[i:j]]. *)
Definition slice (a : list A) (i j : Z) : list A :=
  let n := Z.of_nat (List.length a) in
  let lo := slice_bound n i in
  let hi := slice_bound n j in
  firstn (Z.to_nat (hi - lo)) (skipn (Z.to_nat lo) a).

Definition chunk_size (chunk_duration_ms : Z) : result Z :=
  q <- int_truediv (INPUT_SAMPLE_RATE * chunk_duration_ms) 1000 ;;
  Ok (trunc q).

Definition create_audio_chunks (audio_data : list A) (chunk_duration_ms : Z)
  : result (list (list A)) :=
  size <- chunk_size chunk_duration_ms ;;
  starts <- range0 (Z.of_nat (List.length audio_data)) size ;;
  Ok (map (fun i => slice audio_data i (i + size)) starts).

End Chunker.

(** ** Accumulation buffer

    A method of the class is a function from the object's state to its
    return value and the state it leaves behind. *)

Section AudioBufferClass.

Context {A : Type}.

Record AudioBuffer : Type := mkAudioBuffer {
  sample_rate : Z;
  buffer : list (list A);
  total_samples : Z
}.

Definition method (X : Type) : Type := AudioBuffer -> X * AudioBuffer.

(** [AudioBuffer(sample_rate)]. *)
Definition init (sample_rate : Z) : AudioBuffer :=
  mkAudioBuffer sample_rate [] 0.

Definition add_chunk (audio_chunk : list A) : method unit :=
  fun self =>
    (tt, mkAudioBuffer (sample_rate self)
                       (buffer self ++ [audio_chunk])
                       (total_samples self
                        + Z.of_nat (List.length audio_chunk))).

Definition get_duration : method (result Q) :=
  fun self => (int_truediv (total_samples self) (sample_rate self), self).

(** [np.concatenate] refuses an empty list, hence the guard. *)
Definition get_all_audio : method (list A) :=
  fun self =>
    match buffer self with
    | [] => ([], self)
    | _ :: _ => (List.concat (buffer self), self)
    end.

Definition clear : method unit :=
  fun self =>
    (tt, mkAudioBuffer (sample_rate self) [] 0).

Definition is_empty : method bool :=
  fun self => (Nat.eqb (List.length (buffer self)) 0, self).

(** A call of one of the methods, and the state after a sequence of calls. *)
Inductive call : Type :=
| AddChunk (audio_chunk : list A)
| GetDuration
| GetAllAudio
| Clear
| IsEmpty.

Definition step (self : AudioBuffer) (c : call) : AudioBuffer :=
  match c with
  | AddChunk audio_chunk => snd (add_chunk audio_chunk self)
  | GetDuration => snd (get_duration self)
  | GetAllAudio => snd (get_all_audio self)
  | Clear => snd (clear self)
  | IsEmpty => snd (is_empty self)
  end.

Definition run (calls : list call) (self : AudioBuffer) : AudioBuffer :=
  fold_left step calls self.

(** The sum of the lengths of the held buffers. *)
Definition held_samples (self : AudioBuffer) : Z :=
  fold_right (fun chunk n => Z.of_nat (List.length chunk) + n) 0 (buffer self).

End AudioBufferClass.

Arguments AudioBuffer A : clear implicits.
Arguments call A : clear implicits.

(** ** Source adapters *)

(** The block a sounddevice input callback receives: an array of one
    dimension, or of shape (frames, channels).  A stream has at least one
    channel, so a frame is the sample of channel 0 with the samples of the
    other channels. *)
Inductive sd_block : Type :=
| Sd1D (a : ndarray)
| Sd2D (f : format) (rows : list (Q * list Q)).

Definition sounddevice_to_base64 (indata : sd_block) (frames : Z)
  : result string :=
  let audio_data :=
    match indata with
    | Sd2D f rows => FloatArr f (map fst rows)      (* indata[:, 0] *)
    | Sd1D a => a
    end in
  convert_to_gemini_input_format audio_data INPUT_SAMPLE_RATE "float32".

(** ** Notions of the specification

    The definitions below follow the words of the specification; the
    theorems compare them with the code above. *)

(** "Not valid base64 or its byte length is not a multiple of 2". *)
Definition claimed_decode_failure (s : string) : Prop :=
  Base64.valid_base64 s = false \/
  Z.odd (Z.of_nat (List.length (Base64.rfc4648_decode s))) = true.


(** A number of the format is its own rounding. *)
Definition representable (f : format) (x : Q) : Prop := (fround f x == x)%Q.

(** "Approximately": sample for sample within one unit. *)
Definition within_one (got want : list Z) : Prop :=
  Forall2 (fun g w => Z.abs (g - w) <= 1) got want.

(** The invariant of the accumulation buffer. *)
Definition consistent {A : Type} (self : AudioBuffer A) : Prop :=
  total_samples self = held_samples self.

(** [count] consecutive windows of [size] samples. *)
Definition chunks_from {A : Type} (size count : nat) (x : list A)
  : list (list A) :=
  map (fun k => firstn size (skipn (k * size) x)) (seq 0 count).

(** A check of every integer in [0, n). *)
Definition all_below (n : nat) (P : Z -> bool) : bool :=
  forallb P (map Z.of_nat (seq 0 n)).

(** The value of a finite number of the Standard Library's IEEE 754
    specification, to compare [fround] with it. *)
Definition SF2Q (x : spec_float) : Q :=
  match x with
  | S754_finite s m e =>
      ((if s then -1 else 1) * inject_Z (Z.pos m) * 2 ^ e)%Q
  | _ => 0%Q
  end.

Definition SFofZ (n : positive) : spec_float := S754_finite false n 0.

(** * Properties *)

(** ** Rounding *)

Section FloatFacts.

Local Open Scope Q_scope.

Lemma pow2_pos (e : Z) : 0 < 2 ^ e.
Proof. apply Qpower_0_lt. reflexivity. Qed.

Lemma pow2_inject (k : Z) : (0 <= k)%Z -> 2 ^ k == inject_Z (2 ^ k).
Proof. intros Hk. now rewrite Zpower_Qpower. Qed.

Lemma pow2_add (a b : Z) : 2 ^ (a + b) == 2 ^ a * 2 ^ b.
Proof. apply Qpower_plus. discriminate. Qed.

Lemma pow2_sub (a b : Z) : 2 ^ (a - b) == 2 ^ a / 2 ^ b.
Proof. apply Qpower_minus. discriminate. Qed.

Lemma pow2_le (a b : Z) : (a <= b)%Z -> 2 ^ a <= 2 ^ b.
Proof. intros H. apply Qpower_le_compat_l; [exact H | discriminate]. Qed.

Lemma pow2_lt_inv (a b : Z) : 2 ^ a < 2 ^ b -> (a < b)%Z.
Proof.
  intros H. destruct (Z_lt_le_dec a b) as [Hlt | Hle]; [exact Hlt|].
  apply pow2_le in Hle. lra.
Qed.

Lemma ilog2_le (q : Q) : 0 < q -> 2 ^ ilog2 q <= q.
Proof.
  intros Hq. unfold ilog2.
  set (e := (Z.log2 (Qnum q) - Z.log2 (Z.pos (Qden q)))%Z).
  destruct (Qle_bool (2 ^ e) q) eqn:Hb.
  - now apply Qle_bool_iff.
  - destruct q as [n d]. cbn [Qnum Qden] in e.
    assert (Hn : (0 < n)%Z) by (unfold Qlt in Hq; cbn in Hq; lia).
    pose proof (Z.log2_spec n Hn) as [Hn1 _].
    pose proof (Z.log2_spec (Z.pos d) (Pos2Z.is_pos d)) as [_ Hd2].
    pose proof (Z.log2_nonneg n) as Hln.
    pose proof (Z.log2_nonneg (Z.pos d)) as Hld.
    replace (e - 1)%Z with (Z.log2 n - Z.succ (Z.log2 (Z.pos d)))%Z
      by (unfold e; lia).
    rewrite pow2_sub, !pow2_inject by lia.
    remember (2 ^ Z.log2 n)%Z as a eqn:Ha.
    remember (2 ^ Z.succ (Z.log2 (Z.pos d)))%Z as b eqn:Hb'.
    assert (Hbpos : (0 < b)%Z) by lia.
    apply Qle_shift_div_r.
    + change 0 with (inject_Z 0). rewrite <- Zlt_Qlt. exact Hbpos.
    + unfold Qle, Qmult, inject_Z; cbn [Qnum Qden].
      rewrite !Z.mul_1_r, Pos.mul_1_r. nia.
Qed.

Lemma ilog2_lt (q : Q) (p : Z) : 0 < q -> q < 2 ^ p -> (ilog2 q < p)%Z.
Proof.
  intros H0 Hp. apply pow2_lt_inv. pose proof (ilog2_le q H0). lra.
Qed.

Lemma Qfloor_ge_int (n : Z) (z : Q) : inject_Z n <= z -> (n <= Qfloor z)%Z.
Proof. intros H. apply Qfloor_resp_le in H. now rewrite Qfloor_Z in H. Qed.

Lemma Qfloor_lt_int (n : Z) (z : Q) : z < inject_Z n -> (Qfloor z < n)%Z.
Proof.
  intros H. pose proof (Qfloor_le z) as Hf.
  rewrite Zlt_Qlt. lra.
Qed.

Lemma round_half_even_cases (z : Q) :
  (round_half_even z = Qfloor z /\ z - inject_Z (Qfloor z) <= 1 # 2) \/
  (round_half_even z = (Qfloor z + 1)%Z /\ 1 # 2 <= z - inject_Z (Qfloor z)).
Proof.
  unfold round_half_even.
  destruct (Qcompare (z - inject_Z (Qfloor z)) (1 # 2)) eqn:Hc.
  - apply Qeq_alt in Hc. destruct (Z.even (Qfloor z)); [left | right]; split; auto; lra.
  - apply Qlt_alt in Hc. left; split; auto; lra.
  - apply Qgt_alt in Hc. right; split; auto; lra.
Qed.

Lemma round_half_even_ge_int (n : Z) (z : Q) :
  inject_Z n <= z -> (n <= round_half_even z)%Z.
Proof.
  intros H. apply Qfloor_ge_int in H.
  destruct (round_half_even_cases z) as [[-> _] | [-> _]]; lia.
Qed.

Lemma round_half_even_le_int (n : Z) (z : Q) :
  z <= inject_Z n -> (round_half_even z <= n)%Z.
Proof.
  intros H.
  destruct (round_half_even_cases z) as [[-> _] | [-> Hr]].
  - rewrite Zle_Qle. pose proof (Qfloor_le z). lra.
  - assert (Qfloor z < n)%Z; [| lia].
    rewrite Zlt_Qlt. lra.
Qed.

Lemma round_half_even_err (z : Q) :
  Qabs (inject_Z (round_half_even z) - z) <= 1 # 2.
Proof.
  pose proof (Qfloor_le z) as Hf. pose proof (Qlt_floor z) as Hc.
  rewrite inject_Z_plus in Hc. change (inject_Z 1) with 1 in Hc.
  apply Qabs_Qle_condition.
  destruct (round_half_even_cases z) as [[-> Hr] | [-> Hr]];
    rewrite ?inject_Z_plus; change (inject_Z 1) with 1; split; lra.
Qed.

Lemma fround_0 (f : format) (q : Q) : q == 0 -> fround f q == 0.
Proof.
  intros H. unfold fround. apply Qeq_bool_iff in H. now rewrite H.
Qed.

Lemma fround_nz (f : format) (q : Q) :
  ~ q == 0 -> fround f q == inject_Z (round_half_even (q / ulp f q)) * ulp f q.
Proof.
  intros H. unfold fround.
  destruct (Qeq_bool q 0) eqn:Hb.
  - apply Qeq_bool_iff in Hb. contradiction.
  - apply Qred_correct.
Qed.

Lemma ulp_pos (f : format) (q : Q) : 0 < ulp f q.
Proof. apply pow2_pos. Qed.

(** A number of the grid of [q] below [q] stays below the rounding of [q]. *)
Lemma fround_grid_le (f : format) (q : Q) (m k : Z) :
  (~ q == 0 -> (fexp f (ilog2 (Qabs q)) <= k)%Z) ->
  inject_Z m * 2 ^ k <= q -> inject_Z m * 2 ^ k <= fround f q.
Proof.
  intros Hk Hle.
  destruct (Qeq_dec q 0) as [Hz | Hnz].
  - rewrite (fround_0 f q Hz). lra.
  - specialize (Hk Hnz). rewrite (fround_nz f q Hnz).
    pose proof (ulp_pos f q) as Hg. unfold ulp in *.
    set (fe := fexp f (ilog2 (Qabs q))) in *.
    assert (E : 2 ^ k == inject_Z (2 ^ (k - fe)) * 2 ^ fe).
    { rewrite <- pow2_inject by lia. rewrite <- pow2_add.
      now replace (k - fe + fe)%Z with k by lia. }
    rewrite E in Hle |- *. rewrite Qmult_assoc, <- inject_Z_mult in Hle |- *.
    apply Qmult_le_compat_r; [| lra].
    rewrite <- Zle_Qle. apply round_half_even_ge_int.
    apply Qle_shift_div_l; assumption.
Qed.

Lemma fround_grid_ge (f : format) (q : Q) (m k : Z) :
  (~ q == 0 -> (fexp f (ilog2 (Qabs q)) <= k)%Z) ->
  q <= inject_Z m * 2 ^ k -> fround f q <= inject_Z m * 2 ^ k.
Proof.
  intros Hk Hle.
  destruct (Qeq_dec q 0) as [Hz | Hnz].
  - rewrite (fround_0 f q Hz). lra.
  - specialize (Hk Hnz). rewrite (fround_nz f q Hnz).
    pose proof (ulp_pos f q) as Hg. unfold ulp in *.
    set (fe := fexp f (ilog2 (Qabs q))) in *.
    assert (E : 2 ^ k == inject_Z (2 ^ (k - fe)) * 2 ^ fe).
    { rewrite <- pow2_inject by lia. rewrite <- pow2_add.
      now replace (k - fe + fe)%Z with k by lia. }
    rewrite E in Hle |- *. rewrite Qmult_assoc, <- inject_Z_mult in Hle |- *.
    apply Qmult_le_compat_r; [| lra].
    rewrite <- Zle_Qle. apply round_half_even_le_int.
    apply Qle_shift_div_r; assumption.
Qed.

Lemma ilog2_upper (q : Q) : 0 < q -> q < 2 ^ (ilog2 q + 1).
Proof.
  intros Hq. unfold ilog2.
  set (e := (Z.log2 (Qnum q) - Z.log2 (Z.pos (Qden q)))%Z).
  destruct (Qle_bool (2 ^ e) q) eqn:Hb.
  - destruct q as [n d]. cbn [Qnum Qden] in e.
    assert (Hn : (0 < n)%Z) by (unfold Qlt in Hq; cbn in Hq; lia).
    pose proof (Z.log2_spec n Hn) as [_ Hn2].
    pose proof (Z.log2_spec (Z.pos d) (Pos2Z.is_pos d)) as [Hd1 _].
    pose proof (Z.log2_nonneg n) as Hln.
    pose proof (Z.log2_nonneg (Z.pos d)) as Hld.
    replace (e + 1)%Z with (Z.succ (Z.log2 n) - Z.log2 (Z.pos d))%Z
      by (unfold e; lia).
    rewrite pow2_sub, !pow2_inject by lia.
    remember (2 ^ Z.succ (Z.log2 n))%Z as a eqn:Ha.
    remember (2 ^ Z.log2 (Z.pos d))%Z as b eqn:Hb'.
    assert (Hbpos : (0 < b)%Z) by (subst b; apply Z.pow_pos_nonneg; lia).
    apply Qlt_shift_div_l.
    + change 0 with (inject_Z 0). rewrite <- Zlt_Qlt. exact Hbpos.
    + unfold Qlt, Qmult, inject_Z; cbn [Qnum Qden].
      rewrite !Z.mul_1_r, Pos.mul_1_r. nia.
  - replace (e - 1 + 1)%Z with e by lia.
    apply Qnot_le_lt. intros H. apply Qle_bool_iff in H. congruence.
Qed.

Lemma fexp_le (f : format) (q : Q) (p k : Z) :
  ~ q == 0 -> Qabs q < 2 ^ p -> (p - prec f <= k)%Z -> (emin f <= k)%Z ->
  (fexp f (ilog2 (Qabs q)) <= k)%Z.
Proof.
  intros Hnz Hp Hk Hm.
  assert (H0 : 0 < Qabs q).
  { pose proof (Qabs_nonneg q) as H. apply Qle_lt_or_eq in H.
    destruct H as [H | H]; [exact H |].
    exfalso. apply Hnz. revert H. apply Qabs_case; intros; lra. }
  pose proof (ilog2_lt _ p H0 Hp). unfold fexp. lia.
Qed.

(** Rounding does not cross a representable integer. *)
Lemma fround_int_le (f : format) (n : Z) (q : Q) :
  (emin f <= 0)%Z -> Qabs q < 2 ^ prec f ->
  inject_Z n <= q -> inject_Z n <= fround f q.
Proof.
  intros Hm Hq Hle.
  assert (E : inject_Z n == inject_Z n * 2 ^ 0) by (cbn; ring).
  rewrite E in Hle |- *. apply fround_grid_le; [| exact Hle].
  intros Hnz. apply (fexp_le f q (prec f)); auto; lia.
Qed.

Lemma fround_int_ge (f : format) (n : Z) (q : Q) :
  (emin f <= 0)%Z -> Qabs q < 2 ^ prec f ->
  q <= inject_Z n -> fround f q <= inject_Z n.
Proof.
  intros Hm Hq Hle.
  assert (E : inject_Z n == inject_Z n * 2 ^ 0) by (cbn; ring).
  rewrite E in Hle |- *. apply fround_grid_ge; [| exact Hle].
  intros Hnz. apply (fexp_le f q (prec f)); auto; lia.
Qed.

(** A number with at most [prec] significant bits above the smallest
    exponent is its own rounding. *)
Lemma fround_exact (f : format) (q : Q) (m k p : Z) :
  q == inject_Z m * 2 ^ k -> Qabs q < 2 ^ p ->
  (p - prec f <= k)%Z -> (emin f <= k)%Z ->
  fround f q == q.
Proof.
  intros E Hp Hk Hm. apply Qle_antisym.
  - rewrite E at 2. apply fround_grid_ge; [| rewrite E; lra].
    intros Hnz. now apply (fexp_le f q p).
  - rewrite E at 1. apply fround_grid_le; [| rewrite E; lra].
    intros Hnz. now apply (fexp_le f q p).
Qed.

Lemma fround_exact_int (f : format) (q : Q) (n : Z) :
  q == inject_Z n -> (emin f <= 0)%Z -> (Z.abs n < 2 ^ prec f)%Z ->
  (0 <= prec f)%Z ->
  fround f q == inject_Z n.
Proof.
  intros E Hm Hn Hp.
  rewrite (fround_exact f q n 0 (prec f)); auto; try lia.
  - rewrite E. cbn. ring.
  - rewrite E. rewrite pow2_inject by lia.
    assert (H := Zabs_Qabs n 1). change (n # 1) with (inject_Z n) in H.
    rewrite <- H. change (Z.abs n # 1) with (inject_Z (Z.abs n)).
    now rewrite <- Zlt_Qlt.
Qed.

Lemma trunc_comp (x y : Q) : x == y -> trunc x = trunc y.
Proof.
  intros E. unfold trunc, Qceiling.
  rewrite (Qleb_comp 0 0 (Qeq_refl 0) x y E).
  rewrite (Qfloor_comp x y E).
  assert (E' : - x == - y) by (rewrite E; reflexivity).
  now rewrite (Qfloor_comp _ _ E').
Qed.

Lemma trunc_inject (n : Z) : trunc (inject_Z n) = n.
Proof.
  unfold trunc. rewrite Qceiling_Z, Qfloor_Z. now destruct (Qle_bool 0 (inject_Z n)).
Qed.

Lemma trunc_between (z : Q) : (Qfloor z <= trunc z <= Qceiling z)%Z.
Proof.
  unfold trunc. pose proof (Qle_floor_ceiling z) as H.
  rewrite <- Zle_Qle in H.
  destruct (Qle_bool 0 z); lia.
Qed.

(** Rounding then truncating stays within one unit of the exact value. *)
Lemma trunc_fround_near (f : format) (q : Q) :
  (emin f <= 0)%Z -> Qabs q < 2 ^ prec f ->
  q - 1 < inject_Z (trunc (fround f q)) < q + 1.
Proof.
  intros Hm Hq.
  pose proof (fround_int_le f (Qfloor q) q Hm Hq (Qfloor_le q)) as Hlo.
  pose proof (fround_int_ge f (Qceiling q) q Hm Hq (Qle_ceiling q)) as Hhi.
  apply Qfloor_ge_int in Hlo.
  apply Qceiling_resp_le in Hhi. rewrite Qceiling_Z in Hhi.
  pose proof (trunc_between (fround f q)) as [Ht1 Ht2].
  pose proof (Qlt_floor q) as Hf. pose proof (Qceiling_lt q) as Hc.
  rewrite inject_Z_plus in Hf. unfold Z.sub in Hc. rewrite inject_Z_plus in Hc.
  change (inject_Z 1) with 1 in Hf. change (inject_Z (- (1))) with (- (1)) in Hc.
  assert (H1 : inject_Z (Qfloor q) <= inject_Z (trunc (fround f q)))
    by (rewrite <- Zle_Qle; lia).
  assert (H2 : inject_Z (trunc (fround f q)) <= inject_Z (Qceiling q))
    by (rewrite <- Zle_Qle; lia).
  split; lra.
Qed.


Lemma Qabs_inject (n : Z) : Qabs (inject_Z n) == inject_Z (Z.abs n).
Proof. reflexivity. Qed.

Lemma pow2_big (p : Z) : (0 <= p <= 1024)%Z -> inject_Z (2 ^ p) <= 2 ^ 1024.
Proof.
  intros H. rewrite <- pow2_inject by lia. apply pow2_le. lia.
Qed.

Lemma overflows_small (r : Q) (n : Z) :
  r == inject_Z n -> (Z.abs n < 2 ^ 53)%Z -> overflows binary64 r = false.
Proof.
  intros E Hn. unfold overflows. cbn [emax binary64].
  destruct (Qle_bool (2 ^ 1024) (Qabs r)) eqn:Hb; [| reflexivity].
  apply Qle_bool_iff in Hb. rewrite E, Qabs_inject in Hb.
  pose proof (pow2_big 53 ltac:(lia)) as Hp.
  rewrite Zlt_Qlt in Hn. lra.
Qed.

(** A quotient of two ints that is an integer below [2^53] is exact. *)
Lemma int_truediv_exact (a b n : Z) :
  b <> 0%Z -> a = (n * b)%Z -> (Z.abs n < 2 ^ 53)%Z ->
  exists r, int_truediv a b = Ok r /\ r == inject_Z n.
Proof.
  intros Hb Ha Hn. unfold int_truediv.
  destruct (b =? 0)%Z eqn:E; [apply Z.eqb_eq in E; contradiction |].
  assert (Hq : inject_Z a / inject_Z b == inject_Z n).
  { subst a. rewrite inject_Z_mult. field.
    intros H. apply Hb. now apply (inject_Z_injective b 0). }
  assert (Hr : fround binary64 (inject_Z a / inject_Z b) == inject_Z n)
    by (apply fround_exact_int; [exact Hq | cbn; lia | exact Hn | cbn; lia]).
  rewrite (overflows_small _ n Hr Hn).
  eexists. split; [reflexivity | exact Hr].
Qed.

Lemma fround_le_neg1 (f : format) (q : Q) :
  (emin f <= 0)%Z -> (0 < prec f)%Z -> q <= -1 -> fround f q <= -1.
Proof.
  intros Hm Hp Hq.
  assert (Habs : Qabs q == - q) by (apply Qabs_neg; lra).
  assert (H0 : 0 < Qabs q) by lra.
  pose proof (ilog2_le _ H0) as Hlo. pose proof (ilog2_upper _ H0) as Hup.
  set (e := ilog2 (Qabs q)) in *.
  assert (He : (0 <= e)%Z).
  { assert (H : (0 < e + 1)%Z); [| lia].
    apply pow2_lt_inv. change (2 ^ 0) with 1. lra. }
  assert (G : fround f q <= inject_Z (-1) * 2 ^ e).
  { apply fround_grid_ge.
    - intros _. fold e. unfold fexp. lia.
    - change (inject_Z (-1)) with (-1). lra. }
  pose proof (pow2_le 0 e He) as H1. change (2 ^ 0) with 1 in H1.
  change (inject_Z (-1)) with (-1) in G. lra.
Qed.


Lemma ilog2_ge (q : Q) (a : Z) : 0 < q -> 2 ^ a <= q -> (a <= ilog2 q)%Z.
Proof.
  intros H0 Ha. pose proof (ilog2_upper q H0) as Hup.
  assert (H : (a < ilog2 q + 1)%Z); [| lia].
  apply pow2_lt_inv. lra.
Qed.

(** In the normal range the rounding error is at most [2^-prec] of the
    value. *)
Lemma fround_rel_err (f : format) (q : Q) :
  0 < q -> 2 ^ (emin f + prec f - 1) <= q ->
  Qabs (fround f q - q) <= q * 2 ^ (- prec f).
Proof.
  intros H0 Hn.
  assert (Habs : Qabs q == q) by (apply Qabs_pos; lra).
  assert (H0' : 0 < Qabs q) by lra.
  assert (Hn' : 2 ^ (emin f + prec f - 1) <= Qabs q) by lra.
  pose proof (ilog2_ge _ _ H0' Hn') as He.
  pose proof (ilog2_le _ H0') as Hlo.
  rewrite fround_nz by lra.
  unfold ulp. set (e := ilog2 (Qabs q)) in *.
  replace (fexp f e) with (e - prec f + 1)%Z by (unfold fexp; lia).
  set (g := 2 ^ (e - prec f + 1)).
  assert (Hg : 0 < g) by apply pow2_pos.
  pose proof (round_half_even_err (q / g)) as Hr.
  set (m := inject_Z (round_half_even (q / g))) in *.
  assert (E : m * g - q == (m - q / g) * g) by (field; lra).
  rewrite E, Qabs_Qmult, (Qabs_pos g) by lra.
  assert (Hg2 : g * (1 # 2) == 2 ^ e * 2 ^ (- prec f)).
  { unfold g. replace (e - prec f + 1)%Z with (e + (- prec f) + 1)%Z by lia.
    rewrite !pow2_add. change (2 ^ 1) with 2. ring. }
  assert (Hp : 0 < 2 ^ (- prec f)) by apply pow2_pos.
  apply Qle_trans with ((1 # 2) * g).
  - apply Qmult_le_compat_r; lra.
  - setoid_replace ((1 # 2) * g) with (2 ^ e * 2 ^ (- prec f))
      by (rewrite <- Hg2; ring).
    apply Qmult_le_compat_r; lra.
Qed.

Lemma Qabs_scale (k a b c : Q) :
  0 <= k -> Qabs (a - b) <= c -> Qabs (k * a - k * b) <= k * c.
Proof.
  intros Hk H.
  setoid_replace (k * a - k * b) with (k * (a - b)) by ring.
  rewrite Qabs_Qmult, (Qabs_pos k) by exact Hk.
  destruct (Qle_lt_or_eq _ _ Hk) as [Hpos | Hz].
  - now apply Qmult_le_l.
  - rewrite <- Hz. lra.
Qed.


Lemma ilog2_unique (q : Q) (e : Z) :
  0 < q -> 2 ^ e <= q -> q < 2 ^ (e + 1) -> ilog2 q = e.
Proof.
  intros H0 Hlo Hup.
  pose proof (ilog2_le q H0) as H1. pose proof (ilog2_upper q H0) as H2.
  assert (A : (e < ilog2 q + 1)%Z) by (apply pow2_lt_inv; lra).
  assert (B : (ilog2 q < e + 1)%Z) by (apply pow2_lt_inv; lra).
  lia.
Qed.

Lemma ilog2_comp (q q' : Q) : 0 < q -> q == q' -> ilog2 q = ilog2 q'.
Proof.
  intros H0 E. symmetry. apply ilog2_unique.
  - lra.
  - rewrite <- E. now apply ilog2_le.
  - rewrite <- E. now apply ilog2_upper.
Qed.

Lemma round_half_even_comp (z z' : Q) :
  z == z' -> round_half_even z = round_half_even z'.
Proof.
  intros E. unfold round_half_even.
  rewrite (Qfloor_comp z z' E).
  assert (E' : z - inject_Z (Qfloor z') == z' - inject_Z (Qfloor z'))
    by (rewrite E; reflexivity).
  now rewrite (Qcompare_comp _ _ E' (1 # 2) (1 # 2) (Qeq_refl _)).
Qed.

(** Rounding depends on the value only, and returns a reduced fraction. *)
Lemma fround_comp (f : format) (q q' : Q) :
  q == q' -> fround f q = fround f q'.
Proof.
  intros E. unfold fround.
  rewrite (Qeqb_comp q q' E 0 0 (Qeq_refl 0)).
  destruct (Qeq_bool q' 0) eqn:Hz; [reflexivity |].
  apply Qeq_bool_neq in Hz.
  assert (H0 : 0 < Qabs q).
  { pose proof (Qabs_nonneg q) as H. apply Qle_lt_or_eq in H.
    destruct H as [H | H]; [exact H |].
    exfalso. apply Hz. rewrite <- E. revert H.
    apply Qabs_case; intros; lra. }
  assert (Eu : ulp f q = ulp f q').
  { unfold ulp. f_equal. f_equal. apply ilog2_comp; [exact H0 |].
    now rewrite E. }
  rewrite Eu. apply Qred_complete.
  assert (Ez : q / ulp f q' == q' / ulp f q') by (rewrite E; reflexivity).
  now rewrite (round_half_even_comp _ _ Ez).
Qed.

Lemma int_truediv_zero (b : Z) : b <> 0%Z -> int_truediv 0 b = Ok 0.
Proof.
  intros Hb. unfold int_truediv.
  destruct (b =? 0)%Z eqn:E; [apply Z.eqb_eq in E; contradiction |].
  destruct b; [contradiction | |]; reflexivity.
Qed.

End FloatFacts.

(** [fround] agrees with the Standard Library's specification of IEEE 754
    arithmetic on the inputs that decide the properties below. *)

Example fround_matches_SFdiv :
  (SF2Q (SFdiv 53 1024 (SFofZ 2) (SFofZ 98)) == fdiv binary64 2 98)%Q.
Proof. vm_compute. reflexivity. Qed.

Example fround_matches_SFmul :
  (SF2Q (SFmul 53 1024 (SFdiv 53 1024 (SFofZ 2) (SFofZ 98)) (SFofZ 49))
   == fmul binary64 (fdiv binary64 2 98) 49)%Q.
Proof. vm_compute. reflexivity. Qed.

Example fround_matches_SFmul_single :
  (SF2Q (SFmul 24 128 (S754_finite false 65535 (-16)) (SFofZ 32767))
   == fmul binary32 (65535 # 65536) 32767)%Q.
Proof. vm_compute. reflexivity. Qed.

(** ** Transport codec *)

Lemma all_below_spec (n : nat) (P : Z -> bool) :
  all_below n P = true -> forall z, 0 <= z < Z.of_nat n -> P z = true.
Proof.
  unfold all_below. rewrite forallb_forall. intros H z Hz.
  apply H. apply in_map_iff. exists (Z.to_nat z). split; [lia |].
  apply in_seq. lia.
Qed.

Lemma list_ind3 {A : Type} (P : list A -> Prop) :
  P [] -> (forall a, P [a]) -> (forall a b, P [a; b]) ->
  (forall a b c l, P l -> P (a :: b :: c :: l)) ->
  forall l, P l.
Proof.
  intros H0 H1 H2 H3.
  fix IH 1.
  intros [| a [| b [| c l]]];
    [exact H0 | apply H1 | apply H2 | apply H3; apply IH].
Qed.

Module Base64Facts.
Import Base64.

Lemma sextet_table (v : Z) :
  0 <= v < 64 ->
  is_pad (table_b2a_base64 v) = false /\
  table_a2b_base64 (table_b2a_base64 v) = v.
Proof.
  intros Hv.
  assert (C : all_below 64 (fun v =>
            negb (is_pad (table_b2a_base64 v)) &&
            (table_a2b_base64 (table_b2a_base64 v) =? v)) = true)
    by (vm_compute; reflexivity).
  pose proof (all_below_spec _ _ C v Hv) as H. cbv beta in H.
  apply andb_true_iff in H. destruct H as [H1 H2].
  apply negb_true_iff in H1. apply Z.eqb_eq in H2. auto.
Qed.

Lemma sextet_ranges (b0 b1 b2 : Z) :
  is_byte b0 -> is_byte b1 -> is_byte b2 ->
  0 <= sextet0 b0 < 64 /\ 0 <= sextet1 b0 b1 < 64 /\
  0 <= sextet2 b1 b2 < 64 /\ 0 <= sextet3 b2 < 64.
Proof.
  intros H0 H1 H2.
  assert (C : all_below 256 (fun x => all_below 256 (fun y =>
            (0 <=? sextet0 x) && (sextet0 x <? 64) &&
            (0 <=? sextet1 x y) && (sextet1 x y <? 64) &&
            (0 <=? sextet2 x y) && (sextet2 x y <? 64) &&
            (0 <=? sextet3 x) && (sextet3 x <? 64))) = true)
    by (vm_compute; reflexivity).
  pose proof (all_below_spec _ _ (all_below_spec _ _ C b0 H0) b1 H1) as A.
  pose proof (all_below_spec _ _ (all_below_spec _ _ C b1 H1) b2 H2) as B.
  pose proof (all_below_spec _ _ (all_below_spec _ _ C b2 H2) b2 H2) as D.
  cbv beta in A, B, D.
  repeat (apply andb_true_iff in A; destruct A as [A ?]).
  repeat (apply andb_true_iff in B; destruct B as [B ?]).
  repeat (apply andb_true_iff in D; destruct D as [D ?]).
  lia.
Qed.

Lemma quad_bytes (b0 b1 b2 : Z) :
  is_byte b0 -> is_byte b1 -> is_byte b2 ->
  uchar (Z.lor (Z.shiftl (sextet0 b0) 2) (Z.shiftr (sextet1 b0 b1) 4)) = b0 /\
  uchar (Z.lor (Z.shiftl (Z.land (sextet1 b0 b1) 15) 4)
               (Z.shiftr (sextet2 b1 b2) 2)) = b1 /\
  uchar (Z.lor (Z.shiftl (Z.land (sextet2 b1 b2) 3) 6) (sextet3 b2)) = b2.
Proof.
  intros H0 H1 H2.
  assert (C : all_below 256 (fun x => all_below 256 (fun y =>
            (uchar (Z.lor (Z.shiftl (sextet0 x) 2)
                          (Z.shiftr (sextet1 x y) 4)) =? x) &&
            (Z.land (sextet1 x y) 15 =? Z.shiftr y 4) &&
            (Z.shiftr (sextet2 x y) 2 =? Z.land x 15) &&
            (Z.land (sextet2 x y) 3 =? Z.shiftr y 6) &&
            (uchar (Z.lor (Z.shiftl (Z.shiftr x 4) 4) (Z.land x 15)) =? x) &&
            (uchar (Z.lor (Z.shiftl (Z.shiftr x 6) 6) (sextet3 x)) =? x)))
            = true)
    by (vm_compute; reflexivity).
  pose proof (all_below_spec _ _ (all_below_spec _ _ C b0 H0) b1 H1) as A.
  pose proof (all_below_spec _ _ (all_below_spec _ _ C b1 H1) b2 H2) as B.
  pose proof (all_below_spec _ _ (all_below_spec _ _ C b2 H2) b2 H2) as D.
  cbv beta in A, B, D.
  repeat (apply andb_true_iff in A; destruct A as [A ?]).
  repeat (apply andb_true_iff in B; destruct B as [B ?]).
  repeat (apply andb_true_iff in D; destruct D as [D ?]).
  repeat match goal with H : (_ =? _) = true |- _ => apply Z.eqb_eq in H end.
  repeat split; congruence.
Qed.

(** One step of the decoder on the character of a sextet. *)
Lemma a2b_loop_sextet (v : Z) (rest : string) (quad_pos leftchar pads : Z)
      (bin : list Z) :
  0 <= v < 64 ->
  a2b_loop (String (table_b2a_base64 v) rest) quad_pos leftchar pads bin =
  if quad_pos =? 0 then a2b_loop rest 1 v 0 bin
  else if quad_pos =? 1 then
    a2b_loop rest 2 (Z.land v 15) 0
      (bin ++ [uchar (Z.lor (Z.shiftl leftchar 2) (Z.shiftr v 4))])
  else if quad_pos =? 2 then
    a2b_loop rest 3 (Z.land v 3) 0
      (bin ++ [uchar (Z.lor (Z.shiftl leftchar 4) (Z.shiftr v 2))])
  else
    a2b_loop rest 0 0 0 (bin ++ [uchar (Z.lor (Z.shiftl leftchar 6) v)]).
Proof.
  intros Hv. destruct (sextet_table v Hv) as [Hp Ht].
  cbn [a2b_loop]. rewrite Hp, Ht.
  destruct (64 <=? v) eqn:E; [apply Z.leb_le in E; lia | reflexivity].
Qed.

Ltac sextet_step :=
  rewrite a2b_loop_sextet by assumption; cbn [Z.eqb Pos.eqb].

Lemma a2b_loop_quad (b0 b1 b2 : Z) (rest : string) (bin : list Z) :
  is_byte b0 -> is_byte b1 -> is_byte b2 ->
  a2b_loop (String (table_b2a_base64 (sextet0 b0))
             (String (table_b2a_base64 (sextet1 b0 b1))
                (String (table_b2a_base64 (sextet2 b1 b2))
                   (String (table_b2a_base64 (sextet3 b2)) rest)))) 0 0 0 bin
  = a2b_loop rest 0 0 0 (bin ++ [b0; b1; b2]).
Proof.
  intros H0 H1 H2.
  destruct (sextet_ranges b0 b1 b2 H0 H1 H2) as (R0 & R1 & R2 & R3).
  destruct (quad_bytes b0 b1 b2 H0 H1 H2) as (E0 & E1 & E2).
  do 4 sextet_step.
  rewrite E0, E1, E2. rewrite <- !app_assoc. reflexivity.
Qed.

Lemma is_byte_0 : is_byte 0.
Proof. unfold is_byte; lia. Qed.

Lemma pad_pad_true : is_pad BASE64_PAD = true.
Proof. reflexivity. Qed.

Lemma a2b_loop_b2a (bs : list Z) :
  Forall is_byte bs ->
  forall bin, a2b_loop (b2a_base64 bs) 0 0 0 bin = Ok (bin ++ bs).
Proof.
  induction bs as [| b0 | b0 b1 | b0 b1 b2 rest IH] using list_ind3;
    intros Hall bin.
  - cbn. now rewrite app_nil_r.
  - inversion_clear Hall as [| ? ? H0 _].
    destruct (sextet_ranges b0 0 0 H0 is_byte_0 is_byte_0) as (R0 & R1 & _).
    destruct (quad_bytes b0 0 0 H0 is_byte_0 is_byte_0) as (E0 & _).
    cbn [b2a_base64]. do 2 sextet_step.
    rewrite E0. reflexivity.
  - inversion_clear Hall as [| ? ? H0 Hall'].
    inversion_clear Hall' as [| ? ? H1 _].
    destruct (sextet_ranges b0 b1 0 H0 H1 is_byte_0) as (R0 & R1 & R2 & _).
    destruct (quad_bytes b0 b1 0 H0 H1 is_byte_0) as (E0 & E1 & _).
    cbn [b2a_base64]. do 3 sextet_step.
    rewrite E0, E1. rewrite <- app_assoc. reflexivity.
  - inversion_clear Hall as [| ? ? H0 Hall'].
    inversion_clear Hall' as [| ? ? H1 Hall''].
    inversion_clear Hall'' as [| ? ? H2 Hrest].
    cbn [b2a_base64]. rewrite a2b_loop_quad by assumption.
    rewrite IH by assumption.
    rewrite <- app_assoc. reflexivity.
Qed.

Lemma table_b2a_ascii (i : Z) : (code (table_b2a_base64 i) <? 128) = true.
Proof.
  unfold table_b2a_base64.
  destruct (nth_in_or_default (Z.to_nat i) alphabet BASE64_PAD) as [Hin | ->];
    [| reflexivity].
  assert (C : forallb (fun c => code c <? 128) alphabet = true)
    by (vm_compute; reflexivity).
  rewrite forallb_forall in C. now apply C.
Qed.

Lemma is_ascii_b2a (bs : list Z) : is_ascii (b2a_base64 bs) = true.
Proof.
  induction bs as [| b0 | b0 b1 | b0 b1 b2 rest IH] using list_ind3;
    cbn [b2a_base64 is_ascii]; rewrite ?table_b2a_ascii, ?IH; reflexivity.
Qed.

(** Decoding inverts encoding on every byte string. *)
Lemma b64decode_b64encode (bs : list Z) :
  Forall is_byte bs -> b64decode (b64encode bs) = Ok bs.
Proof.
  intros H. unfold b64decode, b64encode, a2b_base64.
  rewrite is_ascii_b2a. now rewrite a2b_loop_b2a.
Qed.


Lemma string_ind4 (P : string -> Prop) :
  P EmptyString ->
  (forall a, P (String a EmptyString)) ->
  (forall a b, P (String a (String b EmptyString))) ->
  (forall a b c, P (String a (String b (String c EmptyString)))) ->
  (forall a b c d s, P s -> P (String a (String b (String c (String d s))))) ->
  forall s, P s.
Proof.
  intros H0 H1 H2 H3 H4.
  fix IH 1.
  intros [| a [| b [| c [| d s]]]];
    [exact H0 | apply H1 | apply H2 | apply H3 | apply H4; apply IH].
Qed.

Lemma is_alpha_spec (c : ascii) :
  is_alpha c = true ->
  is_pad c = false /\ (64 <=? table_a2b_base64 c) = false /\ code c < 128.
Proof.
  unfold is_alpha. intros H. apply andb_true_iff in H. destruct H as [Hp Ht].
  apply negb_true_iff in Hp. apply Z.ltb_lt in Ht.
  repeat split; [exact Hp | apply Z.leb_gt; exact Ht |].
  revert Ht. unfold table_a2b_base64.
  repeat match goal with
         | |- context [if ?b then _ else _] => destruct b eqn:?
         end; lia.
Qed.

Lemma is_pad_ascii (c : ascii) : is_pad c = true -> code c < 128.
Proof.
  unfold is_pad. intros H. apply Z.eqb_eq in H. rewrite H. reflexivity.
Qed.

(** One step of the decoder on an alphabet character. *)
Lemma a2b_loop_alpha (c : ascii) (rest : string) (quad_pos leftchar pads : Z)
      (bin : list Z) :
  is_alpha c = true ->
  a2b_loop (String c rest) quad_pos leftchar pads bin =
  let v := table_a2b_base64 c in
  if quad_pos =? 0 then a2b_loop rest 1 v 0 bin
  else if quad_pos =? 1 then
    a2b_loop rest 2 (Z.land v 15) 0
      (bin ++ [uchar (Z.lor (Z.shiftl leftchar 2) (Z.shiftr v 4))])
  else if quad_pos =? 2 then
    a2b_loop rest 3 (Z.land v 3) 0
      (bin ++ [uchar (Z.lor (Z.shiftl leftchar 4) (Z.shiftr v 2))])
  else
    a2b_loop rest 0 0 0 (bin ++ [uchar (Z.lor (Z.shiftl leftchar 6) v)]).
Proof.
  intros H. destruct (is_alpha_spec c H) as (Hp & Ht & _).
  cbn [a2b_loop]. now rewrite Hp, Ht.
Qed.

Lemma a2b_loop_pad (c : ascii) (rest : string) (quad_pos leftchar pads : Z)
      (bin : list Z) :
  is_pad c = true ->
  a2b_loop (String c rest) quad_pos leftchar pads bin =
  if 2 <=? quad_pos then
    if 4 <=? quad_pos + (pads + 1) then Ok bin
    else a2b_loop rest quad_pos leftchar (pads + 1) bin
  else a2b_loop rest quad_pos leftchar pads bin.
Proof. intros H. cbn [a2b_loop]. now rewrite H. Qed.

Ltac alpha_step :=
  rewrite a2b_loop_alpha by assumption; cbv zeta; cbn [Z.eqb Pos.eqb].

Ltac pad_step :=
  rewrite a2b_loop_pad by assumption; cbn [Z.leb Z.add Z.compare Pos.compare Pos.compare_cont Pos.add].

Ltac split_andb :=
  repeat match goal with
         | H : _ && _ = true |- _ => apply andb_true_iff in H; destruct H
         | H : _ || _ = true |- _ => apply orb_true_iff in H; destruct H
         end.

Lemma alpha_not_pad (c : ascii) : is_alpha c = true -> is_pad c = false.
Proof. intros H. now destruct (is_alpha_spec c H). Qed.

(** On a valid string the decoder returns the bytes the string stands for. *)
Lemma a2b_loop_valid (s : string) :
  valid_base64 s = true ->
  forall bin, a2b_loop s 0 0 0 bin = Ok (bin ++ rfc4648_decode s).
Proof.
  induction s as [| a | a b | a b c | a b c d rest IH] using string_ind4;
    intros Hv bin; try discriminate Hv.
  - cbn. now rewrite app_nil_r.
  - cbn [valid_base64] in Hv. cbn [rfc4648_decode].
    destruct rest as [| e rest'].
    + split_andb.
      * (* four alphabet characters *)
        rewrite (alpha_not_pad c), (alpha_not_pad d) by assumption.
        do 4 alpha_step. cbn [a2b_loop Z.eqb]. cbn [rfc4648_decode].
        now rewrite <- !app_assoc.
      * (* three and one pad *)
        rewrite (alpha_not_pad c) by assumption.
        match goal with H : is_pad d = true |- _ => rewrite H end.
        do 3 alpha_step. pad_step.
        now rewrite <- !app_assoc.
      * (* two and two pads *)
        match goal with H : is_pad c = true |- _ => rewrite H end.
        do 2 alpha_step. do 2 pad_step. reflexivity.
    + split_andb.
      rewrite (alpha_not_pad c), (alpha_not_pad d) by assumption.
      do 4 alpha_step. rewrite IH by assumption.
      now rewrite <- !app_assoc.
Qed.

Lemma valid_is_ascii (s : string) : valid_base64 s = true -> is_ascii s = true.
Proof.
  assert (A : forall c, is_alpha c = true -> (code c <? 128) = true)
    by (intros c H; apply Z.ltb_lt; now destruct (is_alpha_spec c H) as (_ & _ & ?)).
  assert (B : forall c, is_pad c = true -> (code c <? 128) = true)
    by (intros c H; apply Z.ltb_lt; now apply is_pad_ascii).
  induction s as [| a | a b | a b c | a b c d rest IH] using string_ind4;
    intros Hv; try discriminate Hv; [reflexivity |].
  cbn [valid_base64] in Hv. cbn [is_ascii].
  destruct rest as [| e rest']; split_andb;
    rewrite ?A, ?B, ?IH by assumption; reflexivity.
Qed.

Lemma b64decode_valid (s : string) :
  valid_base64 s = true -> b64decode s = Ok (rfc4648_decode s).
Proof.
  intros H. unfold b64decode, a2b_base64.
  now rewrite valid_is_ascii, a2b_loop_valid.
Qed.

Lemma a2b_loop_error (s : string) :
  forall quad_pos leftchar pads bin e,
    a2b_loop s quad_pos leftchar pads bin = Raise e -> e = BinasciiError.
Proof.
  induction s as [| c rest IH]; intros quad_pos leftchar pads bin e; cbn [a2b_loop].
  - destruct (quad_pos =? 0); congruence.
  - repeat match goal with
           | |- context [if ?b then _ else _] => destruct b
           end; try discriminate; apply IH.
Qed.

End Base64Facts.

Section RawBytes.


Lemma int16_to_bytes_range (v : Z) : Forall is_byte (int16_to_bytes v).
Proof.
  unfold int16_to_bytes, is_byte.
  constructor; [| constructor; [| constructor]];
    Z.div_mod_to_equations; lia.
Qed.

Lemma tobytes_range (a : list Z) : Forall is_byte (tobytes a).
Proof.
  unfold tobytes. induction a as [| v a IH]; cbn [flat_map].
  - constructor.
  - apply Forall_app. split; [apply int16_to_bytes_range | exact IH].
Qed.

Lemma tobytes_length (a : list Z) :
  List.length (tobytes a) = (2 * List.length a)%nat.
Proof.
  unfold tobytes. induction a as [| v a IH]; cbn [flat_map]; [reflexivity |].
  rewrite length_app, IH. cbn. lia.
Qed.

Lemma int16_of_to_bytes (v : Z) :
  is_int16 v ->
  int16_of_bytes ((v mod 65536) mod 256) ((v mod 65536) / 256) = v.
Proof.
  unfold is_int16, int16_of_bytes. intros Hv.
  destruct (_ <? 32768) eqn:E; [apply Z.ltb_lt in E | apply Z.ltb_ge in E];
    Z.div_mod_to_equations; lia.
Qed.

Lemma pairs_to_int16_tobytes (a : list Z) :
  Forall is_int16 a -> pairs_to_int16 (tobytes a) = a.
Proof.
  unfold tobytes. induction 1 as [| v a Hv _ IH]; [reflexivity |].
  cbn [flat_map int16_to_bytes app pairs_to_int16].
  now rewrite int16_of_to_bytes, IH.
Qed.

Lemma frombuffer_tobytes (a : list Z) :
  Forall is_int16 a -> frombuffer_int16 (tobytes a) = Ok a.
Proof.
  intros H. unfold frombuffer_int16. rewrite tobytes_length.
  replace (Z.even (Z.of_nat (2 * List.length a))) with true.
  - now rewrite pairs_to_int16_tobytes.
  - rewrite Nat2Z.inj_mul, Z.even_mul. reflexivity.
Qed.

End RawBytes.

(** C5. Round trip: [decode_base64_to_audio (encode_audio_to_base64 buf)]
    is [buf], element for element, for every buffer of 16-bit signed
    samples. *)
Theorem decode_encode_roundtrip (buf : list Z) :
  Forall is_int16 buf ->
  decode_base64_to_audio (encode_audio_to_base64 buf) = Ok buf.
Proof.
  intros H. unfold decode_base64_to_audio, encode_audio_to_base64.
  rewrite Base64Facts.b64decode_b64encode by apply tobytes_range.
  cbn [bind]. now apply frombuffer_tobytes.
Qed.

Lemma decode_encode_roundtrip_witness :
  Forall is_int16 [100; -100; 200; -32768; 32767] /\
  decode_base64_to_audio (encode_audio_to_base64 [100; -100; 200; -32768; 32767])
  = Ok [100; -100; 200; -32768; 32767].
Proof.
  assert (H : Forall is_int16 [100; -100; 200; -32768; 32767])
    by (repeat constructor; unfold is_int16; lia).
  split; [exact H | exact (decode_encode_roundtrip _ H)].
Defined.

Lemma decode_error_kinds (s : string) (e : exn) :
  decode_base64_to_audio s = Raise e -> e = ValueError \/ e = BinasciiError.
Proof.
  unfold decode_base64_to_audio, Base64.b64decode, Base64.a2b_base64.
  destruct (Base64.is_ascii s); [| cbn; intros [= <-]; now left].
  destruct (Base64.a2b_loop s 0 0 0 []) as [bs | e'] eqn:E; cbn [bind].
  - unfold frombuffer_int16. destruct (Z.even _); [discriminate |].
    intros [= <-]. now left.
  - intros [= <-]. right. eapply Base64Facts.a2b_loop_error. exact E.
Qed.

(** C1 (amended).  On every valid base64 string whose decoded byte length is
    a multiple of 2, [decode_base64_to_audio] returns the fixed-point buffer
    the string stands for; on every valid base64 string whose decoded byte
    length is odd it fails, with [ValueError]; and whenever it fails, the
    error is [ValueError] or [binascii.Error], and the string is not valid
    base64 or its decoded byte length is odd. *)
Theorem decode_fails_only_on_invalid_input (s : string) :
  (Base64.valid_base64 s = true ->
   Z.even (Z.of_nat (List.length (Base64.rfc4648_decode s))) = true ->
   decode_base64_to_audio s = Ok (pairs_to_int16 (Base64.rfc4648_decode s)))
  /\
  (Base64.valid_base64 s = true ->
   Z.odd (Z.of_nat (List.length (Base64.rfc4648_decode s))) = true ->
   decode_base64_to_audio s = Raise ValueError)
  /\
  (forall e, decode_base64_to_audio s = Raise e ->
             (e = ValueError \/ e = BinasciiError) /\ claimed_decode_failure s).
Proof.
  assert (G : Base64.valid_base64 s = true ->
              Z.even (Z.of_nat (List.length (Base64.rfc4648_decode s))) = true ->
              decode_base64_to_audio s
              = Ok (pairs_to_int16 (Base64.rfc4648_decode s))).
  { intros Hv He. unfold decode_base64_to_audio.
    rewrite Base64Facts.b64decode_valid by exact Hv. cbn [bind].
    unfold frombuffer_int16. now rewrite He. }
  split; [exact G |]. split.
  - intros Hv Ho. unfold decode_base64_to_audio.
    rewrite Base64Facts.b64decode_valid by exact Hv. cbn [bind].
    unfold frombuffer_int16. rewrite <- Z.negb_odd, Ho. reflexivity.
  - intros e He. split; [now apply (decode_error_kinds s) |].
    unfold claimed_decode_failure.
    destruct (Base64.valid_base64 s) eqn:Hv; [| now left].
    right. rewrite <- Z.negb_even.
    destruct (Z.even _) eqn:Hev; [| reflexivity].
    rewrite G in He by reflexivity. discriminate.
Qed.

Lemma decode_fails_only_on_invalid_input_witness :
  decode_base64_to_audio "ZACAAP//" = Ok [100; 128; -1] /\
  decode_base64_to_audio "AA==" = Raise ValueError.
Proof.
  split.
  - exact (proj1 (decode_fails_only_on_invalid_input "ZACAAP//")
                 eq_refl eq_refl).
  - exact (proj1 (proj2 (decode_fails_only_on_invalid_input "AA=="))
                 eq_refl eq_refl).
Defined.

(** C1 as stated fails, in one direction only: the string [A!AA=] is not
    valid base64, yet it is decoded, to the buffer [[0]]; the decoder skips
    the character outside the alphabet. *)
Lemma decode_accepts_invalid_base64 :
  ~ (forall s, raises (decode_base64_to_audio s) <-> claimed_decode_failure s).
Proof.
  intros H. destruct (H "A!AA="%string) as [_ Hfail].
  destruct Hfail as [e He]; [left; reflexivity |].
  vm_compute in He. discriminate He.
Qed.

(** ** Sample format converters *)

Section Converters.

Local Open Scope Q_scope.

Variable f : format.
Hypothesis f_numpy : In f [binary32; binary64].

Lemma numpy_format : (emin f <= 0)%Z /\ 2 ^ 24 <= 2 ^ prec f.
Proof.
  destruct f_numpy as [<- | [<- | []]]; split;
    solve [cbn; lia | apply pow2_le; cbn; lia].
Qed.

Lemma clip_id (x : Q) : -1 <= x <= 1 -> clip (-1) 1 x = x.
Proof.
  intros [H1 H2]. unfold clip, Qlt_bool.
  apply Qle_bool_iff in H1, H2. rewrite H1. cbn [negb]. now rewrite H2.
Qed.

Lemma wrap_int16_id (z : Z) : is_int16 z -> wrap_int16 z = z.
Proof.
  unfold is_int16, wrap_int16. intros H.
  rewrite Z.mod_small; lia.
Qed.

Lemma astype_int16_id (x : Q) :
  is_int16 (trunc x) -> astype_int16 x = trunc x.
Proof.
  intros H. unfold astype_int16. cbv zeta.
  assert (B : ((- 2 ^ 31 <=? trunc x) && (trunc x <? 2 ^ 31))%Z = true).
  { unfold is_int16 in H. apply andb_true_intro. split.
    - apply Z.leb_le. lia.
    - apply Z.ltb_lt. lia. }
  rewrite B. now apply wrap_int16_id.
Qed.

Lemma scaled_bound (x : Q) :
  -1 <= x <= 1 -> Qabs (x * inject_Z 32767) < 2 ^ prec f.
Proof.
  intros H. destruct numpy_format as [_ Hp].
  apply Qlt_le_trans with (2 ^ 24); [| exact Hp].
  apply Qabs_Qlt_condition.
  change (inject_Z 32767) with 32767. change (2 ^ 24) with 16777216. lra.
Qed.

Lemma scaled_int16 (x : Q) :
  -1 <= x <= 1 ->
  (-32767 <= trunc (fmul f x (inject_Z 32767)) <= 32767)%Z.
Proof.
  intros H. unfold fmul. destruct numpy_format as [Hm _].
  pose proof (scaled_bound x H) as Hb.
  assert (Hlo : inject_Z (-32767) <= x * inject_Z 32767)
    by (change (inject_Z (-32767)) with (-32767);
        change (inject_Z 32767) with 32767; lra).
  assert (Hhi : x * inject_Z 32767 <= inject_Z 32767)
    by (change (inject_Z 32767) with 32767; lra).
  apply (fround_int_le f) in Hlo; [| exact Hm | exact Hb].
  apply (fround_int_ge f) in Hhi; [| exact Hm | exact Hb].
  apply Qfloor_ge_int in Hlo.
  apply Qceiling_resp_le in Hhi. rewrite Qceiling_Z in Hhi.
  pose proof (trunc_between (fround f (x * inject_Z 32767))). lia.
Qed.

(** [int16_to_float32] is exact: a 16-bit integer and its quotient by
    [2^15] are single-precision numbers. *)
Lemma int16_to_float32_exact (v : Z) :
  is_int16 v ->
  fdiv binary32 (fround binary32 (inject_Z v)) (inject_Z 32768)
  == inject_Z v / 32768.
Proof.
  intros Hv. unfold is_int16 in Hv.
  assert (E : fround binary32 (inject_Z v) == inject_Z v).
  { apply fround_exact_int; [reflexivity | cbn; lia | cbn; lia | cbn; lia]. }
  unfold fdiv. change (inject_Z 32768) with 32768.
  assert (E2 : fround binary32 (inject_Z v) / 32768 == inject_Z v * 2 ^ (-15)).
  { rewrite E. change (2 ^ (-15)) with (1 # 32768). field. }
  rewrite (fround_exact binary32 _ v (-15) 1 E2); try (cbn; lia).
  - rewrite E2. change (2 ^ (-15)) with (1 # 32768). field.
  - rewrite E2. change (2 ^ (-15)) with (1 # 32768). change (2 ^ 1) with 2.
    apply Qabs_Qlt_condition.
    assert (H : inject_Z (-32768) <= inject_Z v <= inject_Z 32767)
      by (rewrite <- !Zle_Qle; lia).
    change (inject_Z (-32768)) with (-32768) in H.
    change (inject_Z 32767) with 32767 in H. lra.
Qed.

Lemma float_roundtrip_error (x : Q) :
  -1 <= x <= 1 ->
  exists r,
    int16_to_float32 (float32_to_int16 (FloatArr f [x])) = [r] /\
    Qabs (r - x) < 1 # 16384.
Proof.
  intros Hx. destruct numpy_format as [Hm _]. eexists. split.
  - cbn [float32_to_int16 int16_to_float32 values float_format map].
    reflexivity.
  - rewrite (clip_id x Hx).
    pose proof (scaled_int16 x Hx) as Hr.
    rewrite astype_int16_id by (unfold is_int16; lia).
    rewrite int16_to_float32_exact by (unfold is_int16; lia).
    pose proof (trunc_fround_near f (x * inject_Z 32767) Hm
                  (scaled_bound x Hx)) as [H1 H2].
    unfold fmul.
    remember (inject_Z (trunc (fround f (x * inject_Z 32767)))) as t eqn:Et.
    change (inject_Z 32767) with 32767 in H1, H2. clear Hr Et.
    unfold Qdiv. change (/ 32768) with (1 # 32768).
    apply Qabs_Qlt_condition. split; lra.
Qed.

End Converters.

(** C2 (amended).  For every sample [x] in [-1, 1], of single or double
    precision, converting to 16-bit fixed point and back gives a value
    within two quantization steps of [x]: the error is below [2/32768].
    (Scaling is by 32767 with truncation toward zero and the way back
    divides by 32768, so the error can exceed one step.) *)
Theorem float_roundtrip_within_two_steps (f : format) (x : Q) :
  In f [binary32; binary64] ->
  (-1 <= x <= 1)%Q ->
  exists r,
    int16_to_float32 (float32_to_int16 (FloatArr f [x])) = [r] /\
    (Qabs (r - x) < 1 # 16384)%Q.
Proof. intros Hf Hx. now apply float_roundtrip_error. Qed.

Lemma float_roundtrip_within_two_steps_witness :
  exists r,
    int16_to_float32
      (float32_to_int16 (FloatArr binary32 [(65535 # 65536)%Q])) = [r] /\
    (Qabs (r - (65535 # 65536)) < 1 # 16384)%Q.
Proof.
  apply (float_roundtrip_within_two_steps binary32 (65535 # 65536)).
  - left. reflexivity.
  - split; discriminate.
Defined.

(** C2 as stated fails: at the single-precision number [1 - 2^-16] the
    round trip returns [32766/32768], which is [3/65536] away, more than
    [1/32767]. *)
Lemma float_roundtrip_exceeds_one_step :
  ~ (forall x r,
        representable binary32 x -> (-1 <= x <= 1)%Q ->
        int16_to_float32 (float32_to_int16 (FloatArr binary32 [x])) = [r] ->
        (Qabs (r - x) <= 1 # 32767)%Q).
Proof.
  intros H.
  specialize (H (65535 # 65536)%Q (16383 # 16384)%Q).
  assert (R : representable binary32 (65535 # 65536))
    by (vm_compute; reflexivity).
  assert (B : (-1 <= 65535 # 65536 <= 1)%Q) by (split; discriminate).
  assert (E : int16_to_float32
                (float32_to_int16 (FloatArr binary32 [(65535 # 65536)%Q]))
              = [(16383 # 16384)%Q]) by (vm_compute; reflexivity).
  specialize (H R B E). vm_compute in H. apply H. reflexivity.
Qed.

(** ** Format pipeline *)

(** C3.  The float samples [0.5, -0.5, 0.0] at 16000 Hz, in single or double
    precision, are sent as a transport string that decodes to
    [16383, -16383, 0], which is [16383, -16384, 0] up to one unit in the
    second sample. *)
Theorem end_to_end_example :
  forall f, In f [binary32; binary64] ->
  exists s buf,
    convert_to_gemini_input_format
      (FloatArr f [(1 # 2)%Q; (-1 # 2)%Q; 0%Q]) 16000 "float32" = Ok s /\
    decode_base64_to_audio s = Ok buf /\
    buf = [16383; -16383; 0] /\
    within_one buf [16383; -16384; 0].
Proof.
  intros f Hf. exists "/z8BwAAA"%string, [16383; -16383; 0].
  assert (W : within_one [16383; -16383; 0] [16383; -16384; 0])
    by (repeat constructor; cbn; lia).
  destruct Hf as [<- | [<- | []]];
    (split; [vm_compute; reflexivity |]);
    (split; [vm_compute; reflexivity |]); (split; [reflexivity | exact W]).
Qed.

Lemma end_to_end_example_witness :
  exists s buf,
    convert_to_gemini_input_format
      (FloatArr binary32 [(1 # 2)%Q; (-1 # 2)%Q; 0%Q]) 16000 "float32" = Ok s /\
    decode_base64_to_audio s = Ok buf /\
    buf = [16383; -16383; 0] /\
    within_one buf [16383; -16384; 0].
Proof.
  apply (end_to_end_example binary32). left. reflexivity.
Defined.

(** ** Chunker *)

Section ChunkerFacts.

Context {A : Type}.

Lemma chunks_from_succ (size count : nat) (x : list A) :
  chunks_from size (S count) x
  = firstn size x :: chunks_from size count (skipn size x).
Proof.
  unfold chunks_from. cbn [seq map]. f_equal.
  rewrite <- seq_shift, map_map. apply map_ext. intros k.
  rewrite skipn_skipn. do 2 f_equal. lia.
Qed.

Lemma chunks_from_concat (size count : nat) :
  forall x : list A, (List.length x <= count * size)%nat ->
             List.concat (chunks_from size count x) = x.
Proof.
  induction count as [| count IH]; intros x Hlen.
  - destruct x; [reflexivity | cbn in Hlen; lia].
  - rewrite chunks_from_succ. cbn [List.concat].
    rewrite IH; [apply firstn_skipn |].
    rewrite length_skipn. lia.
Qed.

Lemma chunks_from_full (size count : nat) (x : list A) :
  (count * size <= List.length x)%nat ->
  Forall (fun c => List.length c = size) (chunks_from size count x).
Proof.
  intros Hlen. unfold chunks_from. apply Forall_map, Forall_forall.
  intros k Hk. apply in_seq in Hk.
  rewrite length_firstn, length_skipn. nia.
Qed.

Lemma chunks_from_removelast (size count : nat) (x : list A) :
  removelast (chunks_from size count x) = chunks_from size (pred count) x.
Proof.
  destruct count as [| count]; [reflexivity |].
  unfold chunks_from. rewrite seq_S, map_app. cbn [map pred].
  apply removelast_last.
Qed.

Lemma slice_chunk (x : list A) (i size : Z) :
  0 <= i -> 0 < size ->
  slice x i (i + size)
  = firstn (Z.to_nat size) (skipn (Z.to_nat i) x).
Proof.
  intros Hi Hs. unfold slice, slice_bound.
  remember (Z.of_nat (List.length x)) as n eqn:Hn.
  destruct (i <? 0) eqn:E1; [apply Z.ltb_lt in E1; lia |].
  destruct (i + size <? 0) eqn:E2; [apply Z.ltb_lt in E2; lia |].
  destruct (Z_le_gt_dec n i) as [Hge | Hlt].
  - rewrite (skipn_all2 x (n := Z.to_nat (Z.min i n))) by lia.
    rewrite (skipn_all2 x (n := Z.to_nat i)) by lia.
    now rewrite !firstn_nil.
  - rewrite (Z.min_l i n) by lia.
    destruct (Z_le_gt_dec (i + size) n) as [Hfit | Hover].
    + rewrite (Z.min_l (i + size) n) by lia. f_equal. lia.
    + rewrite (Z.min_r (i + size) n) by lia.
      rewrite !firstn_all2; [reflexivity | |]; rewrite length_skipn; lia.
Qed.

Lemma create_audio_chunks_pos (x : list A) (d size : Z) :
  chunk_size d = Ok size -> 0 < size ->
  create_audio_chunks x d
  = Ok (chunks_from (Z.to_nat size)
          (Z.to_nat ((Z.of_nat (List.length x) + size - 1) / size)) x).
Proof.
  intros Hcs Hs. unfold create_audio_chunks. rewrite Hcs. cbn [bind].
  unfold range0.
  destruct (size =? 0) eqn:E0; [apply Z.eqb_eq in E0; lia |].
  destruct (0 <? size) eqn:E1; [| apply Z.ltb_ge in E1; lia].
  cbn [bind]. f_equal. unfold chunks_from. rewrite map_map.
  apply map_ext. intros k.
  rewrite slice_chunk by lia. do 2 f_equal. lia.
Qed.

Lemma create_audio_chunks_neg (x : list A) (d size : Z) :
  chunk_size d = Ok size -> size < 0 -> create_audio_chunks x d = Ok [].
Proof.
  intros Hcs Hs. unfold create_audio_chunks. rewrite Hcs. cbn [bind].
  unfold range0.
  destruct (size =? 0) eqn:E0; [apply Z.eqb_eq in E0; lia |].
  destruct (0 <? size) eqn:E1; [apply Z.ltb_lt in E1; lia |].
  cbn [bind].
  assert (H : (- Z.of_nat (List.length x) - size - 1) / - size < 1)
    by (apply Z.div_lt_upper_bound; lia).
  destruct ((- Z.of_nat (List.length x) - size - 1) / - size);
    [reflexivity | lia | reflexivity].
Qed.

End ChunkerFacts.

Lemma chunk_size_exact (d : Z) :
  - 2 ^ 49 < d < 2 ^ 49 -> chunk_size d = Ok (16 * d).
Proof.
  intros Hd. unfold chunk_size.
  destruct (int_truediv_exact (INPUT_SAMPLE_RATE * d) 1000 (16 * d))
    as (r & Hr & Er); [lia | unfold INPUT_SAMPLE_RATE; lia | lia |].
  rewrite Hr. cbn [bind]. now rewrite (trunc_comp r _ Er), trunc_inject.
Qed.

Lemma chunk_size_zero : chunk_size 0 = Ok 0.
Proof. apply (chunk_size_exact 0). lia. Qed.

Lemma chunk_size_negative (d size : Z) :
  d < 0 -> chunk_size d = Ok size -> size < 0.
Proof.
  intros Hd. unfold chunk_size, int_truediv. cbn [Z.eqb].
  set (r := fround binary64 _).
  destruct (overflows binary64 r); [discriminate |]. cbn [bind].
  intros [= <-].
  assert (Hr : (r <= -1)%Q).
  { apply fround_le_neg1; [cbn; lia | cbn; lia |].
    assert (E : (inject_Z (INPUT_SAMPLE_RATE * d) / inject_Z 1000
                 == inject_Z (16 * d))%Q).
    { unfold INPUT_SAMPLE_RATE.
      replace (16000 * d) with (16 * d * 1000) by lia.
      rewrite (inject_Z_mult (16 * d) 1000). field. }
    rewrite E. change (-1)%Q with (inject_Z (-1)). rewrite <- Zle_Qle. lia. }
  unfold trunc.
  destruct (Qle_bool 0 r) eqn:Hb; [apply Qle_bool_iff in Hb; lra |].
  apply Qceiling_resp_le in Hr. change (-1)%Q with (inject_Z (-1)) in Hr.
  rewrite Qceiling_Z in Hr. lia.
Qed.

Section ChunkerTheorems.

Context {A : Type}.

(** C6 (amended).  For every sample buffer [x] and every chunk duration [d]
    of at least one millisecond (and below [2^49], where [16000 * d / 1000]
    is computed exactly), [create_audio_chunks x d] returns chunks whose
    concatenation is [x]; every chunk but the last has
    [floor (INPUT_SAMPLE_RATE * d / 1000)] samples; the empty buffer gives
    no chunk. *)
Theorem chunking_complete (x : list A) (d : Z) :
  1 <= d < 2 ^ 49 ->
  exists chunks,
    create_audio_chunks x d = Ok chunks /\
    List.concat chunks = x /\
    Forall (fun c => Z.of_nat (List.length c) = INPUT_SAMPLE_RATE * d / 1000)
           (removelast chunks) /\
    (x = [] -> chunks = []).
Proof.
  intros Hd.
  assert (Hcs : chunk_size d = Ok (16 * d)) by (apply chunk_size_exact; lia).
  assert (Hs : 0 < 16 * d) by lia.
  pose proof (create_audio_chunks_pos x d (16 * d) Hcs Hs) as Hc.
  set (n := Z.of_nat (List.length x)) in *.
  set (count := Z.to_nat ((n + 16 * d - 1) / (16 * d))) in *.
  assert (Hfloor : INPUT_SAMPLE_RATE * d / 1000 = 16 * d).
  { unfold INPUT_SAMPLE_RATE. replace (16000 * d) with (16 * d * 1000) by lia.
    now rewrite Z.div_mul. }
  assert (Hq : 0 <= (n + 16 * d - 1) / (16 * d))
    by (apply Z.div_pos; lia).
  assert (Hup : n <= (n + 16 * d - 1) / (16 * d) * (16 * d)).
  { pose proof (Z.mod_pos_bound (n + 16 * d - 1) (16 * d) Hs).
    pose proof (Z.div_mod (n + 16 * d - 1) (16 * d) ltac:(lia)). lia. }
  assert (Hlow : ((n + 16 * d - 1) / (16 * d) - 1) * (16 * d) < n \/ n = 0).
  { pose proof (Z.mod_pos_bound (n + 16 * d - 1) (16 * d) Hs).
    pose proof (Z.div_mod (n + 16 * d - 1) (16 * d) ltac:(lia)). lia. }
  eexists. split; [exact Hc |]. split; [| split].
  - apply chunks_from_concat. unfold count. nia.
  - rewrite chunks_from_removelast.
    eapply Forall_impl; [| apply chunks_from_full].
    + intros c Hlen. cbv beta in Hlen. rewrite Hlen, Hfloor. lia.
    + unfold count. destruct Hlow as [Hlow | Hz]; [nia |].
      rewrite Hz. replace ((0 + 16 * d - 1) / (16 * d)) with 0; [cbn; lia |].
      symmetry. apply Z.div_small. lia.
  - intros ->. unfold count, n. cbn [List.length Z.of_nat].
    replace ((0 + 16 * d - 1) / (16 * d)) with 0; [reflexivity |].
    symmetry. apply Z.div_small. lia.
Qed.

(** C10.  [create_audio_chunks] needs a chunk size of at least one: with a
    duration of 0 it raises [ValueError] (zero step of [range]), on every
    input; with a negative duration it never returns a chunk, and returns
    the empty list of chunks even on a non-empty input; so whenever the
    chunks of a non-empty input concatenate to it,
    [floor (INPUT_SAMPLE_RATE * d / 1000) >= 1]. *)
Theorem chunking_needs_positive_chunk_size :
  (forall x : list A, create_audio_chunks x 0 = Raise ValueError) /\
  (forall (x : list A) d chunks,
      d < 0 -> create_audio_chunks x d = Ok chunks -> chunks = []) /\
  (forall (x : list A) d,
      - 2 ^ 49 < d < 0 -> create_audio_chunks x d = Ok []) /\
  (forall (x : list A) d chunks,
      x <> [] -> create_audio_chunks x d = Ok chunks ->
      List.concat chunks = x ->
      1 <= INPUT_SAMPLE_RATE * d / 1000).
Proof.
  assert (Z0 : forall x : list A, create_audio_chunks x 0 = Raise ValueError).
  { intros x. unfold create_audio_chunks. rewrite chunk_size_zero. reflexivity. }
  assert (N : forall (x : list A) d chunks,
             d < 0 -> create_audio_chunks x d = Ok chunks -> chunks = []).
  { intros x d chunks Hd Hc.
    destruct (chunk_size d) as [size | e] eqn:Hcs.
    - pose proof (chunk_size_negative d size Hd Hcs) as Hs.
      rewrite (create_audio_chunks_neg x d size Hcs Hs) in Hc. congruence.
    - unfold create_audio_chunks in Hc. rewrite Hcs in Hc. discriminate. }
  split; [exact Z0 |]. split; [exact N |]. split.
  - intros x d Hd.
    apply (create_audio_chunks_neg x d (16 * d)); [| lia].
    apply chunk_size_exact. lia.
  - intros x d chunks Hx Hc Hcat.
    destruct (Z.lt_trichotomy d 0) as [Hneg | [-> | Hpos]].
    + rewrite (N x d chunks Hneg Hc) in Hcat. cbn in Hcat. congruence.
    + rewrite Z0 in Hc. discriminate.
    + unfold INPUT_SAMPLE_RATE. replace (16000 * d) with (16 * d * 1000) by lia.
      rewrite Z.div_mul; lia.
Qed.

End ChunkerTheorems.

Lemma chunking_complete_witness :
  exists chunks,
    create_audio_chunks (repeat 7 40) 1 = Ok chunks /\
    List.concat chunks = repeat 7 40 /\
    Forall (fun c => Z.of_nat (List.length c) = INPUT_SAMPLE_RATE * 1 / 1000)
           (removelast chunks) /\
    (repeat 7 40 = [] -> chunks = []).
Proof.
  apply (chunking_complete (repeat 7 40) 1). lia.
Defined.

Lemma chunking_needs_positive_chunk_size_witness :
  create_audio_chunks [1; 2; 3] (-5) = Ok [] /\
  create_audio_chunks [1; 2; 3] 0 = Raise ValueError.
Proof.
  destruct (@chunking_needs_positive_chunk_size Z) as (H0 & _ & Hneg & _).
  split; [apply Hneg; lia | apply H0].
Defined.

(** C6 as stated fails: with a duration of 0 there are no chunks at all,
    not even for the empty buffer, because the call raises. *)
Lemma chunking_not_total :
  ~ (forall (x : list Z) (d : Z),
        exists chunks,
          create_audio_chunks x d = Ok chunks /\
          List.concat chunks = x /\
          Forall (fun c => Z.of_nat (List.length c)
                           = INPUT_SAMPLE_RATE * d / 1000)
                 (removelast chunks) /\
          (x = [] -> chunks = [])).
Proof.
  intros H. destruct (H [] 0) as (chunks & Hc & _).
  vm_compute in Hc. discriminate Hc.
Qed.

(** ** Accumulation buffer *)

Section AudioBufferFacts.

Context {A : Type}.

Lemma held_samples_app (sr : Z) (chunks : list (list A)) (c : list A) (n m : Z) :
  held_samples (mkAudioBuffer sr (chunks ++ [c]) n)
  = held_samples (mkAudioBuffer sr chunks m) + Z.of_nat (List.length c).
Proof.
  unfold held_samples. cbn [buffer].
  induction chunks as [| c0 chunks IH]; cbn [app fold_right]; lia.
Qed.

Lemma step_sample_rate (self : AudioBuffer A) (c : call A) :
  sample_rate (step self c) = sample_rate self.
Proof.
  destruct c; cbn; try reflexivity.
  unfold get_all_audio. now destruct (buffer self).
Qed.

Lemma step_consistent (self : AudioBuffer A) (c : call A) :
  consistent self -> consistent (step self c).
Proof.
  unfold consistent. intros H. destruct c; cbn [step].
  - cbn [add_chunk snd total_samples].
    rewrite (held_samples_app _ _ _ _ (total_samples self)).
    rewrite H. destruct self; reflexivity.
  - exact H.
  - unfold get_all_audio. now destruct (buffer self).
  - reflexivity.
  - exact H.
Qed.

Lemma run_invariant (calls : list (call A)) :
  forall self, consistent self ->
               consistent (run calls self) /\
               sample_rate (run calls self) = sample_rate self.
Proof.
  unfold run.
  induction calls as [| c calls IH]; intros self H; cbn [fold_left].
  - auto.
  - destruct (IH (step self c) (step_consistent self c H)) as [H1 H2].
    split; [exact H1 |]. now rewrite H2, step_sample_rate.
Qed.

(** C7.  After any finite sequence of method calls on a new [AudioBuffer],
    [total_samples] is the sum of the lengths of the held buffers, so
    [get_duration] is that sum divided by the sample rate; right after
    [clear] the buffer is empty, holds nothing, and its duration is 0 (the
    division needs a non-zero sample rate). *)
Theorem audio_buffer_invariant (sr : Z) (calls : list (call A)) :
  let self := run calls (init sr) in
  total_samples self = held_samples self /\
  fst (get_duration self) = int_truediv (held_samples self) sr /\
  (let cleared := snd (clear self) in
   fst (is_empty cleared) = true /\
   buffer cleared = [] /\
   total_samples cleared = held_samples cleared /\
   (sr <> 0 -> fst (get_duration cleared) = Ok 0%Q)).
Proof.
  destruct (run_invariant calls (init sr)) as [Hc Hs]; [reflexivity |].
  cbn zeta. cbn [init sample_rate] in Hs.
  split; [exact Hc |]. split.
  - cbn [get_duration fst]. now rewrite Hc, Hs.
  - cbn [clear snd is_empty fst buffer total_samples get_duration sample_rate
         List.length Nat.eqb].
    repeat split. intros Hsr. rewrite Hs. now apply int_truediv_zero.
Qed.

Lemma run_add_chunks (chunks : list (list A)) :
  forall self,
    buffer (run (map (@AddChunk A) chunks) self) = buffer self ++ chunks.
Proof.
  unfold run.
  induction chunks as [| c chunks IH]; intros self; cbn [map fold_left].
  - now rewrite app_nil_r.
  - rewrite IH. cbn [step add_chunk snd buffer]. now rewrite <- app_assoc.
Qed.

(** C9.  [get_all_audio] returns the concatenation of the held buffers, in
    the order they were added, the empty buffer when none is held, and
    leaves the object as it was. *)
Theorem get_all_audio_frame (self : AudioBuffer A) :
  fst (get_all_audio self) = List.concat (buffer self) /\
  snd (get_all_audio self) = self /\
  (buffer self = [] -> fst (get_all_audio self) = []) /\
  (forall sr chunks,
      self = run (map (@AddChunk A) chunks) (init sr) ->
      fst (get_all_audio self) = List.concat chunks).
Proof.
  assert (G : fst (get_all_audio self) = List.concat (buffer self)
              /\ snd (get_all_audio self) = self)
    by (unfold get_all_audio; destruct (buffer self); auto).
  destruct G as [G1 G2].
  split; [exact G1 |]. split; [exact G2 |]. split.
  - intros H. rewrite G1, H. reflexivity.
  - intros sr chunks ->. rewrite G1, run_add_chunks. reflexivity.
Qed.

End AudioBufferFacts.

Lemma audio_buffer_invariant_witness :
  let self := run [AddChunk [1; 2; 3]; GetAllAudio; AddChunk [4; 5]; IsEmpty]
                  (init 24000) in
  total_samples self = 5 /\
  fst (get_duration (snd (clear self))) = Ok 0%Q.
Proof.
  pose proof (audio_buffer_invariant 24000
                [AddChunk [1; 2; 3]; GetAllAudio; AddChunk [4; 5]; IsEmpty])
    as (H1 & _ & _ & _ & _ & H2).
  split; [exact H1 | apply H2; discriminate].
Defined.

Lemma get_all_audio_frame_witness :
  fst (get_all_audio (run (map (@AddChunk Z) [[1; 2]; []; [3]]) (init 24000)))
  = [1; 2; 3].
Proof.
  exact (proj2 (proj2 (proj2 (get_all_audio_frame
           (run (map (@AddChunk Z) [[1; 2]; []; [3]]) (init 24000)))))
           24000 [[1; 2]; []; [3]] eq_refl).
Defined.

(** ** Resampler *)

(** The length computation [int((n / s) * t)] in double precision: both
    roundings together move [s * p] by less than one from [n * t]. *)

Section NewLength.
Local Open Scope Q_scope.

Variables n s t : Z.
Hypothesis Hn : (1 <= n)%Z.
Hypothesis Hs : (1 <= s < 2 ^ 53)%Z.
Hypothesis Ht : (1 <= t)%Z.
Hypothesis Hnt : (n * t < 2 ^ 51)%Z.

Lemma rates_as_rationals :
  1 <= inject_Z n /\ 1 <= inject_Z s /\ inject_Z s < 9007199254740992 /\
  1 <= inject_Z t /\ inject_Z n * inject_Z t < 2251799813685248.
Proof.
  change 1 with (inject_Z 1).
  change 9007199254740992 with (inject_Z (2 ^ 53)).
  change 2251799813685248 with (inject_Z (2 ^ 51)).
  rewrite <- inject_Z_mult, <- !Zle_Qle, <- !Zlt_Qlt. lia.
Qed.

Lemma duration_close (d : Q) :
  d = fround binary64 (inject_Z n / inject_Z s) ->
  Qabs (inject_Z s * d - inject_Z n) <= inject_Z n * (1 # 9007199254740992) /\
  (1 # 18014398509481984) <= d.
Proof.
  intros Hd.
  destruct rates_as_rationals as (N1 & S1 & S2 & T1 & NT).
  remember (inject_Z n / inject_Z s) as L eqn:EL.
  assert (HL : inject_Z s * L == inject_Z n) by (subst L; field; lra).
  assert (L0 : (1 # 9007199254740992) <= L).
  { subst L. apply Qle_shift_div_l; lra. }
  assert (Hnorm : 2 ^ (emin binary64 + prec binary64 - 1) <= L).
  { apply Qle_trans with (2 ^ (-53)); [apply pow2_le; cbn; lia |].
    exact L0. }
  pose proof (fround_rel_err binary64 L ltac:(lra) Hnorm) as Hr.
  rewrite <- Hd in Hr.
  change (2 ^ (- prec binary64)) with (1 # 9007199254740992) in Hr.
  pose proof (Qabs_scale (inject_Z s) d L _ ltac:(lra) Hr) as Hsc.
  rewrite HL in Hsc.
  setoid_replace (inject_Z s * (L * (1 # 9007199254740992)))
    with (inject_Z n * (1 # 9007199254740992)) in Hsc
    by (rewrite <- HL; ring).
  apply Qabs_Qle_condition in Hr.
  split; [exact Hsc | lra].
Qed.

Lemma product_close (d p : Q) :
  d = fround binary64 (inject_Z n / inject_Z s) ->
  p = fround binary64 (d * inject_Z t) ->
  0 < p /\
  inject_Z (n * t) - 1 < inject_Z s * p < inject_Z (n * t) + 1.
Proof.
  intros Hd Hp.
  destruct rates_as_rationals as (N1 & S1 & S2 & T1 & NT).
  destruct (duration_close d Hd) as [Hsd Hd0].
  remember (d * inject_Z t) as q eqn:Eq.
  assert (Hq0 : (1 # 18014398509481984) <= q) by (subst q; nra).
  assert (Hnorm : 2 ^ (emin binary64 + prec binary64 - 1) <= q).
  { apply Qle_trans with (2 ^ (-54)); [apply pow2_le; cbn; lia |].
    exact Hq0. }
  pose proof (fround_rel_err binary64 q ltac:(lra) Hnorm) as Hr.
  rewrite <- Hp in Hr.
  change (2 ^ (- prec binary64)) with (1 # 9007199254740992) in Hr.
  pose proof (Qabs_scale (inject_Z s) p q _ ltac:(lra) Hr) as Hsp.
  pose proof (Qabs_scale (inject_Z t) _ _ _ ltac:(lra) Hsd) as Hst.
  apply Qabs_Qle_condition in Hr, Hsp, Hst.
  rewrite inject_Z_mult.
  remember (inject_Z s * p) as P eqn:EP.
  remember (inject_Z n * inject_Z t) as NT' eqn:ENT.
  assert (EY : inject_Z s * q == inject_Z t * (inject_Z s * d))
    by (subst q; ring).
  remember (inject_Z s * q) as Y eqn:EY'.
  setoid_replace (inject_Z t * inject_Z n) with NT' in Hst by (subst NT'; ring).
  setoid_replace (inject_Z t * (inject_Z n * (1 # 9007199254740992)))
    with (NT' * (1 # 9007199254740992)) in Hst by (subst NT'; ring).
  rewrite <- EY in Hst.
  setoid_replace (inject_Z s * (q * (1 # 9007199254740992)))
    with (Y * (1 # 9007199254740992)) in Hsp by (subst Y; ring).
  split; [lra |].
  clear - Hsp Hst NT. split; lra.
Qed.

Lemma trunc_product (d p : Q) :
  d = fround binary64 (inject_Z n / inject_Z s) ->
  p = fround binary64 (d * inject_Z t) ->
  trunc p = (n * t / s)%Z \/
  ((n * t) mod s = 0 /\ trunc p = n * t / s - 1)%Z.
Proof.
  intros Hd Hp.
  destruct (product_close d p Hd Hp) as (Hp0 & Hlo & Hhi).
  destruct rates_as_rationals as (_ & S1 & _).
  assert (Htr : trunc p = Qfloor p).
  { unfold trunc. destruct (Qle_bool 0 p) eqn:Hb; [reflexivity |].
    assert (H : 0 <= p) by lra. apply Qle_bool_iff in H. congruence. }
  rewrite Htr.
  pose proof (Z.div_mod (n * t) s ltac:(lia)) as Hdm.
  pose proof (Z.mod_pos_bound (n * t) s ltac:(lia)) as Hr.
  set (V := (n * t / s)%Z) in *. set (r := ((n * t) mod s)%Z) in *.
  assert (EV : inject_Z (n * t) == inject_Z s * inject_Z V + inject_Z r)
    by (rewrite Hdm, inject_Z_plus, inject_Z_mult; reflexivity).
  rewrite EV in Hlo, Hhi. clearbody V r. clear Hdm Htr EV.
  assert (R0 : 0 <= inject_Z r) by (change 0 with (inject_Z 0); rewrite <- Zle_Qle; lia).
  assert (R1 : inject_Z r + 1 <= inject_Z s).
  { change 1 with (inject_Z 1). rewrite <- inject_Z_plus, <- Zle_Qle. lia. }
  assert (Hup : p < inject_Z (V + 1)).
  { rewrite inject_Z_plus. change (inject_Z 1) with 1.
    apply (proj1 (Qmult_lt_l _ _ (inject_Z s) ltac:(lra))).
    remember (inject_Z s * inject_Z V) as SV. remember (inject_Z s * p) as SP.
    setoid_replace (inject_Z s * (inject_Z V + 1)) with (SV + inject_Z s)
      by (subst SV; ring).
    lra. }
  apply Qfloor_lt_int in Hup.
  destruct (Z.eq_dec r 0) as [Hz | Hnz].
  - assert (Hdown : inject_Z (V - 1) <= p).
    { unfold Z.sub. rewrite inject_Z_plus. change (inject_Z (-1)) with (-1).
      apply Qlt_le_weak.
      apply (proj1 (Qmult_lt_l _ _ (inject_Z s) ltac:(lra))).
      remember (inject_Z s * inject_Z V) as SV. remember (inject_Z s * p) as SP.
      setoid_replace (inject_Z s * (inject_Z V + -1)) with (SV - inject_Z s)
        by (subst SV; ring).
      lra. }
    apply Qfloor_ge_int in Hdown. lia.
  - left.
    assert (R2 : 1 <= inject_Z r)
      by (change 1 with (inject_Z 1); rewrite <- Zle_Qle; lia).
    assert (Hdown : inject_Z V <= p).
    { apply Qlt_le_weak.
      apply (proj1 (Qmult_lt_l _ _ (inject_Z s) ltac:(lra))).
      remember (inject_Z s * inject_Z V) as SV. remember (inject_Z s * p) as SP.
      lra. }
    apply Qfloor_ge_int in Hdown. lia.
Qed.

End NewLength.

Section ResampleFacts.
Local Open Scope Z_scope.


Lemma length_arange (n : Z) : List.length (arange n) = Z.to_nat n.
Proof. unfold arange. now rewrite length_map, length_seq. Qed.

Lemma length_values (a : ndarray) : List.length (values a) = Z.to_nat (len a).
Proof.
  destruct a; cbn [values len]; rewrite ?length_map; lia.
Qed.

Lemma linspace_ok (stop num : Z) :
  0 <= num ->
  exists l, linspace stop num = Ok l /\ List.length l = Z.to_nat num.
Proof.
  intros H. unfold linspace.
  destruct (num <? 0) eqn:E; [apply Z.ltb_lt in E; lia |].
  eexists. split; [reflexivity |]. now rewrite length_map, length_arange.
Qed.

Lemma interp_ok (x xp fp : list Q) :
  xp <> [] -> List.length fp = List.length xp ->
  exists l, interp x xp fp = Ok l /\ List.length l = List.length x.
Proof.
  intros Hxp Hlen. unfold interp. destruct xp as [| x0 xp]; [contradiction |].
  rewrite Hlen, Nat.eqb_refl.
  eexists. split; [reflexivity |]. now rewrite length_map.
Qed.

Lemma no_overflow_below (r : Q) :
  (0 <= r)%Q -> (r <= inject_Z (2 ^ 53))%Q -> overflows binary64 r = false.
Proof.
  intros H0 H1. unfold overflows. cbn [emax binary64].
  destruct (Qle_bool (2 ^ 1024) (Qabs r)) eqn:Hb; [| reflexivity].
  apply Qle_bool_iff in Hb. rewrite Qabs_pos in Hb by exact H0.
  pose proof (pow2_le 54 1024 ltac:(lia)) as Hp.
  change (2 ^ 54)%Q with (inject_Z (2 ^ 54)) in Hp.
  assert (inject_Z (2 ^ 53) < inject_Z (2 ^ 54))%Q by (rewrite <- Zlt_Qlt; lia).
  lra.
Qed.

(** The length computation of [resample_audio] on realistic sizes. *)
Lemma new_length_ok (n s t : Z) :
  1 <= n -> 1 <= s < 2 ^ 53 -> 1 <= t -> n * t < 2 ^ 51 ->
  exists duration new_length,
    int_truediv n s = Ok duration /\
    int_of_float_mul_int duration t = Ok new_length /\
    0 <= new_length /\
    (new_length = n * t / s \/
     ((n * t) mod s = 0 /\ new_length = n * t / s - 1)).
Proof.
  intros Hn Hs Ht Hnt.
  destruct (rates_as_rationals n s t Hn Hs Ht Hnt) as (N1 & S1 & S2 & T1 & NT).
  remember (fround binary64 (inject_Z n / inject_Z s)) as d eqn:Hd.
  remember (fround binary64 (d * inject_Z t)) as p eqn:Hp.
  destruct (duration_close n s t Hn Hs Ht Hnt d Hd) as [Hsd Hd0].
  destruct (product_close n s t Hn Hs Ht Hnt d p Hd Hp) as (Hp0 & Hlo & Hhi).
  assert (Hdn : (d <= inject_Z n)%Q).
  { rewrite Hd. apply fround_int_ge; [cbn; lia | |].
    - apply Qabs_Qlt_condition. cbn [prec binary64].
      change (2 ^ 53)%Q with 9007199254740992%Q.
      assert (0 <= inject_Z n / inject_Z s)%Q
        by (apply Qle_shift_div_l; lra).
      assert (inject_Z n / inject_Z s <= inject_Z n)%Q
        by (apply Qle_shift_div_r; nra).
      nra.
    - apply Qle_shift_div_r; nra. }
  assert (Hpn : (p <= inject_Z (2 ^ 53))%Q).
  { rewrite inject_Z_mult in Hhi.
    change (inject_Z (2 ^ 53)) with 9007199254740992%Q. nra. }
  exists d, (trunc p). split; [| split; [| split]].
  - unfold int_truediv.
    destruct (s =? 0) eqn:E; [apply Z.eqb_eq in E; lia |].
    rewrite <- Hd. rewrite no_overflow_below; [reflexivity | lra |].
    change (inject_Z (2 ^ 53)) with 9007199254740992%Q. nra.
  - unfold int_of_float_mul_int, float_of_int.
    assert (Et : (fround binary64 (inject_Z t) == inject_Z t)%Q).
    { apply fround_exact_int; [reflexivity | cbn; lia | cbn; nia | cbn; lia]. }
    rewrite (no_overflow_below (fround binary64 (inject_Z t)));
      [| rewrite Et; lra
       | rewrite Et; change (inject_Z (2 ^ 53)) with 9007199254740992%Q; nra].
    cbn [bind]. unfold fmul.
    assert (Ep : fround binary64 (d * fround binary64 (inject_Z t)) = p).
    { rewrite Hp. apply fround_comp. now rewrite Et. }
    rewrite Ep. rewrite no_overflow_below; [reflexivity | lra | exact Hpn].
  - pose proof (trunc_between p) as [Hf _].
    assert (0 <= Qfloor p); [| lia].
    apply Qfloor_ge_int. change (inject_Z 0) with 0%Q. lra.
  - apply (trunc_product n s t Hn Hs Ht Hnt d p Hd Hp).
Qed.

End ResampleFacts.




(** C8.  On the empty buffer, with distinct positive rates, [resample_audio]
    does not return: [np.interp] refuses an empty array of sample points
    with [ValueError]. *)
Theorem resample_empty_raises (f : format) (s t : Z) :
  (0 < s)%Z -> (0 < t < 2 ^ 53)%Z -> s <> t ->
  resample_audio (FloatArr f []) s t = Raise ValueError.
Proof.
  intros Hs Ht Hst. unfold resample_audio.
  destruct (s =? t)%Z eqn:E; [apply Z.eqb_eq in E; contradiction |].
  cbn [len List.length Z.of_nat].
  rewrite int_truediv_zero by lia. cbn [bind].
  unfold int_of_float_mul_int, float_of_int.
  assert (Et : (fround binary64 (inject_Z t) == inject_Z t)%Q).
  { apply fround_exact_int; [reflexivity | cbn; lia | cbn; lia | cbn; lia]. }
  rewrite (overflows_small _ t Et) by lia. cbn [bind]. unfold fmul.
  assert (Ep : fround binary64 (0 * fround binary64 (inject_Z t)) = 0%Q)
    by (rewrite (fround_comp binary64 _ 0%Q); [reflexivity | ring]).
  rewrite Ep. reflexivity.
Qed.

(** The same failure through the format pipeline: an empty reply of the API,
    asked for at another rate than 24000 Hz, is not converted. *)
Example empty_reply_is_not_converted :
  decode_base64_to_audio "" = Ok [] /\
  convert_from_gemini_output_format "" "float32" 16000 = Raise ValueError /\
  convert_from_gemini_output_format "" "float32" 24000
  = Ok (FloatArr binary32 []).
Proof. repeat split; vm_compute; reflexivity. Qed.

Lemma resample_empty_raises_witness :
  resample_audio (FloatArr binary32 []) 16000 24000 = Raise ValueError.
Proof.
  apply (resample_empty_raises binary32 16000 24000); lia.
Defined.

(** * Further properties of the module *)

Section Monotone.
Local Open Scope Q_scope.

Lemma inject_Z_sub (x y : Z) : inject_Z (x - y) = inject_Z x - inject_Z y.
Proof. unfold Z.sub. now rewrite inject_Z_plus, inject_Z_opp. Qed.

Lemma round_half_even_mono (z1 z2 : Q) :
  z1 <= z2 -> (round_half_even z1 <= round_half_even z2)%Z.
Proof.
  intros H.
  destruct (Qlt_le_dec z2 (inject_Z (round_half_even z1))) as [Hlt | Hge];
    [| now apply round_half_even_ge_int].
  destruct (round_half_even_cases z1) as [[E1 _] | [E1 R1]].
  - rewrite E1 in Hlt. pose proof (Qfloor_le z1). lra.
  - rewrite E1 in Hlt |- *. rewrite inject_Z_plus in Hlt.
    change (inject_Z 1) with 1 in Hlt.
    assert (F2 : Qfloor z2 = Qfloor z1).
    { apply Z.le_antisymm.
      - assert (Qfloor z2 < Qfloor z1 + 1)%Z; [| lia].
        apply Qfloor_lt_int. rewrite inject_Z_plus. exact Hlt.
      - now apply Qfloor_resp_le. }
    destruct (round_half_even_cases z2) as [[E2 R2] | [E2 _]];
      rewrite E2, F2; [| lia].
    rewrite F2 in R2.
    assert (E : z1 == z2) by lra.
    rewrite <- (round_half_even_comp _ _ E), E1 in E2. lia.
Qed.

Lemma fround_nonneg (f : format) (q : Q) : 0 <= q -> 0 <= fround f q.
Proof.
  intros H.
  assert (E : 0 == inject_Z 0 * 2 ^ fexp f (ilog2 (Qabs q))) by ring.
  assert (G : inject_Z 0 * 2 ^ fexp f (ilog2 (Qabs q)) <= fround f q)
    by (apply fround_grid_le; [intros _; lia | lra]).
  lra.
Qed.

Lemma fround_nonpos (f : format) (q : Q) : q <= 0 -> fround f q <= 0.
Proof.
  intros H.
  assert (E : 0 == inject_Z 0 * 2 ^ fexp f (ilog2 (Qabs q))) by ring.
  assert (G : fround f q <= inject_Z 0 * 2 ^ fexp f (ilog2 (Qabs q)))
    by (apply fround_grid_ge; [intros _; lia | lra]).
  lra.
Qed.

Lemma ilog2_mono (q1 q2 : Q) : 0 < q1 -> q1 <= q2 -> (ilog2 q1 <= ilog2 q2)%Z.
Proof.
  intros H0 H. apply ilog2_ge; [lra |].
  pose proof (ilog2_le q1 H0). lra.
Qed.

Lemma Qabs_pos_lt (q : Q) : ~ q == 0 -> 0 < Qabs q.
Proof.
  intros Hnz. pose proof (Qabs_nonneg q) as H. apply Qle_lt_or_eq in H.
  destruct H as [H | H]; [exact H |].
  exfalso. apply Hnz. revert H. apply Qabs_case; intros; lra.
Qed.

(** Two numbers of the same sign whose units in the last place differ are
    separated by a power of two that both roundings respect. *)
Lemma fround_mono_pos (f : format) (q1 q2 : Q) :
  (0 < prec f)%Z -> 0 < q1 -> q1 <= q2 -> fround f q1 <= fround f q2.
Proof.
  intros Hp H0 H.
  assert (A1 : Qabs q1 == q1) by (apply Qabs_pos; lra).
  assert (A2 : Qabs q2 == q2) by (apply Qabs_pos; lra).
  assert (P1 : 0 < Qabs q1) by lra. assert (P2 : 0 < Qabs q2) by lra.
  assert (He : (ilog2 (Qabs q1) <= ilog2 (Qabs q2))%Z)
    by (apply ilog2_mono; lra).
  destruct (Z.eq_dec (fexp f (ilog2 (Qabs q1))) (fexp f (ilog2 (Qabs q2))))
    as [Eg | Ng].
  - rewrite !fround_nz by lra. unfold ulp. rewrite Eg.
    set (g := 2 ^ fexp f (ilog2 (Qabs q2))).
    assert (Hg : 0 < g) by apply pow2_pos.
    apply Qmult_le_compat_r; [| lra].
    rewrite <- Zle_Qle. apply round_half_even_mono.
    apply Qmult_le_compat_r; [exact H |].
    apply Qlt_le_weak, Qinv_lt_0_compat, Hg.
  - set (e2 := ilog2 (Qabs q2)) in *. set (e1 := ilog2 (Qabs q1)) in *.
    assert (F2 : (fexp f e1 < fexp f e2)%Z) by (unfold fexp in *; lia).
    assert (K : (fexp f e2 <= e2)%Z) by (unfold fexp in *; lia).
    pose proof (ilog2_le _ P2) as L2. fold e2 in L2.
    pose proof (ilog2_upper _ P1) as U1. fold e1 in U1.
    assert (e1 < e2)%Z by (unfold fexp in *; lia).
    assert (M : 2 ^ (e1 + 1) <= 2 ^ e2) by (apply pow2_le; lia).
    assert (E : 2 ^ e2 == inject_Z 1 * 2 ^ e2) by (change (inject_Z 1) with 1; ring).
    apply Qle_trans with (inject_Z 1 * 2 ^ e2).
    + apply fround_grid_ge; [intros _; fold e1; lia |]. rewrite <- E. lra.
    + apply fround_grid_le; [intros _; fold e2; lia |]. rewrite <- E. lra.
Qed.

Lemma fround_mono_neg (f : format) (q1 q2 : Q) :
  (0 < prec f)%Z -> q2 < 0 -> q1 <= q2 -> fround f q1 <= fround f q2.
Proof.
  intros Hp H0 H.
  assert (A1 : Qabs q1 == - q1) by (apply Qabs_neg; lra).
  assert (A2 : Qabs q2 == - q2) by (apply Qabs_neg; lra).
  assert (P1 : 0 < Qabs q1) by lra. assert (P2 : 0 < Qabs q2) by lra.
  assert (He : (ilog2 (Qabs q2) <= ilog2 (Qabs q1))%Z)
    by (apply ilog2_mono; lra).
  destruct (Z.eq_dec (fexp f (ilog2 (Qabs q1))) (fexp f (ilog2 (Qabs q2))))
    as [Eg | Ng].
  - rewrite !fround_nz by lra. unfold ulp. rewrite Eg.
    set (g := 2 ^ fexp f (ilog2 (Qabs q2))).
    assert (Hg : 0 < g) by apply pow2_pos.
    apply Qmult_le_compat_r; [| lra].
    rewrite <- Zle_Qle. apply round_half_even_mono.
    apply Qmult_le_compat_r; [exact H |].
    apply Qlt_le_weak, Qinv_lt_0_compat, Hg.
  - set (e2 := ilog2 (Qabs q2)) in *. set (e1 := ilog2 (Qabs q1)) in *.
    assert (F2 : (fexp f e2 < fexp f e1)%Z) by (unfold fexp in *; lia).
    assert (K : (fexp f e1 <= e1)%Z) by (unfold fexp in *; lia).
    pose proof (ilog2_le _ P1) as L1. fold e1 in L1.
    pose proof (ilog2_upper _ P2) as U2. fold e2 in U2.
    assert (e2 < e1)%Z by (unfold fexp in *; lia).
    assert (M : 2 ^ (e2 + 1) <= 2 ^ e1) by (apply pow2_le; lia).
    assert (E : - 2 ^ e1 == inject_Z (-1) * 2 ^ e1)
      by (change (inject_Z (-1)) with (-1); ring).
    apply Qle_trans with (inject_Z (-1) * 2 ^ e1).
    + apply fround_grid_ge; [intros _; fold e1; lia |]. rewrite <- E. lra.
    + apply fround_grid_le; [intros _; fold e2; lia |]. rewrite <- E. lra.
Qed.

(** Rounding to nearest is monotone. *)
Lemma fround_mono (f : format) (q1 q2 : Q) :
  (0 < prec f)%Z -> q1 <= q2 -> fround f q1 <= fround f q2.
Proof.
  intros Hp H.
  destruct (Qlt_le_dec 0 q1) as [P1 | N1].
  - now apply fround_mono_pos.
  - destruct (Qlt_le_dec q2 0) as [N2 | P2].
    + now apply fround_mono_neg.
    + pose proof (fround_nonpos f q1 N1). pose proof (fround_nonneg f q2 P2).
      lra.
Qed.

Lemma trunc_mono (x y : Q) : x <= y -> (trunc x <= trunc y)%Z.
Proof.
  intros H. unfold trunc.
  pose proof (Qfloor_resp_le _ _ H) as Hf.
  pose proof (Qceiling_resp_le _ _ H) as Hc.
  pose proof (Qle_floor_ceiling x) as Hx. rewrite <- Zle_Qle in Hx.
  pose proof (Qle_floor_ceiling y) as Hy. rewrite <- Zle_Qle in Hy.
  destruct (Qle_bool 0 x) eqn:Bx; destruct (Qle_bool 0 y) eqn:By; try lia.
  apply Qle_bool_iff in By. apply (Qfloor_ge_int 0) in By.
  assert (Nx : x <= inject_Z 0).
  { apply Qnot_lt_le. intros C. apply Qlt_le_weak in C.
    apply Qle_bool_iff in C. change (Qle_bool 0 x = true) in C. congruence. }
  apply Qceiling_resp_le in Nx. rewrite Qceiling_Z in Nx. lia.
Qed.

End Monotone.

Section ConverterProperties.
Local Open Scope Q_scope.

Lemma clip_range (x : Q) : -1 <= clip (-1) 1 x <= 1.
Proof.
  unfold clip, Qlt_bool.
  destruct (Qle_bool (-1) x) eqn:B1; cbn [negb].
  - destruct (Qle_bool x 1) eqn:B2; cbn [negb].
    + apply Qle_bool_iff in B1, B2. split; assumption.
    + split; discriminate.
  - cbn. split; discriminate.
Qed.

Lemma clip_mono (x y : Q) : x <= y -> clip (-1) 1 x <= clip (-1) 1 y.
Proof.
  intros H. unfold clip, Qlt_bool.
  assert (T : forall a b, Qle_bool a b = false -> b < a).
  { intros a b Hb. apply Qnot_le_lt. intros C.
    apply Qle_bool_iff in C. congruence. }
  destruct (Qle_bool (-1) x) eqn:X1; destruct (Qle_bool (-1) y) eqn:Y1;
    cbn [negb];
    try (apply Qle_bool_iff in X1); try (apply Qle_bool_iff in Y1);
    try (apply T in X1); try (apply T in Y1);
    repeat match goal with
           | |- context [Qle_bool ?a ?b] =>
               let E := fresh "E" in
               destruct (Qle_bool a b) eqn:E;
               [apply Qle_bool_iff in E | apply T in E]
           end; cbn [negb]; lra.
Qed.

Lemma clip_high (x : Q) : 1 <= x -> clip (-1) 1 x == 1.
Proof.
  intros H. pose proof (clip_range x) as [_ R].
  pose proof (clip_mono 1 x H) as M. change (clip (-1) 1 1) with 1 in M. lra.
Qed.

Lemma clip_low (x : Q) : x <= -1 -> clip (-1) 1 x == -1.
Proof.
  intros H. pose proof (clip_range x) as [R _].
  pose proof (clip_mono x (-1) H) as M.
  change (clip (-1) 1 (-1)) with (-1) in M. lra.
Qed.

Variable f : format.
Hypothesis f_numpy : In f [binary32; binary64].

Lemma numpy_prec_pos : (0 < prec f)%Z.
Proof. destruct f_numpy as [<- | [<- | []]]; reflexivity. Qed.

(** After clipping, the conversion to [int16] neither wraps nor leaves
    [-32767, 32767]. *)
Lemma fixed_sample (x : Q) :
  astype_int16 (fmul f (clip (-1) 1 x) (inject_Z 32767))
  = trunc (fmul f (clip (-1) 1 x) (inject_Z 32767)) /\
  (-32767 <= trunc (fmul f (clip (-1) 1 x) (inject_Z 32767)) <= 32767)%Z.
Proof.
  pose proof (scaled_int16 f f_numpy _ (clip_range x)) as R.
  split; [| exact R].
  apply astype_int16_id. unfold is_int16. lia.
Qed.

Lemma fixed_sample_mono (x y : Q) :
  x <= y ->
  (astype_int16 (fmul f (clip (-1) 1 x) (inject_Z 32767))
   <= astype_int16 (fmul f (clip (-1) 1 y) (inject_Z 32767)))%Z.
Proof.
  intros H.
  rewrite (proj1 (fixed_sample x)), (proj1 (fixed_sample y)).
  apply trunc_mono. unfold fmul. apply fround_mono; [apply numpy_prec_pos |].
  apply Qmult_le_compat_r; [now apply clip_mono | discriminate].
Qed.

Lemma fixed_sample_const (x : Q) (n : Z) :
  clip (-1) 1 x == inject_Z n -> (Z.abs n <= 1)%Z ->
  astype_int16 (fmul f (clip (-1) 1 x) (inject_Z 32767)) = (n * 32767)%Z.
Proof.
  intros E Hn. rewrite (proj1 (fixed_sample x)). unfold fmul.
  assert (Ep : clip (-1) 1 x * inject_Z 32767 == inject_Z (n * 32767))
    by (rewrite E, inject_Z_mult; reflexivity).
  rewrite (trunc_comp _ (inject_Z (n * 32767))); [apply trunc_inject |].
  destruct numpy_format with (1 := f_numpy) as [Hm Hp].
  apply fround_exact_int; [exact Ep | exact Hm | | ].
  - apply Z.lt_le_trans with (2 ^ 24)%Z; [lia |].
    destruct f_numpy as [<- | [<- | []]]; cbn; lia.
  - pose proof numpy_prec_pos. lia.
Qed.

End ConverterProperties.

(** X1.  [float32_to_int16] returns one sample per input sample, and every
    sample lies in [-32767, 32767]: after clipping the conversion never
    wraps, and never produces -32768. *)
Theorem float32_to_int16_range (a : ndarray) :
  In (float_format a) [binary32; binary64] ->
  List.length (float32_to_int16 a) = List.length (values a) /\
  Forall (fun v => -32767 <= v <= 32767) (float32_to_int16 a).
Proof.
  intros Hf. unfold float32_to_int16. split.
  - now rewrite !length_map.
  - apply Forall_map, Forall_map, Forall_forall. intros x _.
    destruct (fixed_sample _ Hf x) as [E R]. rewrite E. exact R.
Qed.

Lemma float32_to_int16_range_witness :
  List.length (float32_to_int16 (FloatArr binary32 [(5 # 2)%Q; (-7 # 1)%Q]))
  = 2%nat /\
  Forall (fun v => -32767 <= v <= 32767)
         (float32_to_int16 (FloatArr binary32 [(5 # 2)%Q; (-7 # 1)%Q])).
Proof.
  apply (float32_to_int16_range (FloatArr binary32 [(5 # 2)%Q; (-7 # 1)%Q])).
  left. reflexivity.
Defined.

(** X2.  Clamping: a sample of 1.0 or more becomes 32767, a sample of -1.0 or
    less becomes -32767 (so [2.0] and [1.0] convert alike), and silence
    stays 0. *)
Theorem float32_to_int16_saturates (f : format) (x : Q) :
  In f [binary32; binary64] ->
  ((1 <= x)%Q -> float32_to_int16 (FloatArr f [x]) = [32767]) /\
  ((x <= -1)%Q -> float32_to_int16 (FloatArr f [x]) = [-32767]) /\
  ((x == 0)%Q -> float32_to_int16 (FloatArr f [x]) = [0]).
Proof.
  intros Hf. cbn [float32_to_int16 float_format values map].
  split; [| split]; intros H; f_equal.
  - apply (fixed_sample_const f Hf x 1); [now apply clip_high | lia].
  - apply (fixed_sample_const f Hf x (-1)); [now apply clip_low | lia].
  - apply (fixed_sample_const f Hf x 0); [| lia].
    rewrite clip_id by (rewrite H; split; discriminate). exact H.
Qed.

Lemma float32_to_int16_saturates_witness :
  float32_to_int16 (FloatArr binary32 [2%Q])
  = float32_to_int16 (FloatArr binary32 [1%Q]) /\
  float32_to_int16 (FloatArr binary32 [(-2)%Q])
  = float32_to_int16 (FloatArr binary32 [(-1)%Q]).
Proof.
  pose proof (float32_to_int16_saturates binary32 2
                ltac:(left; reflexivity)) as (H2 & _ & _).
  pose proof (float32_to_int16_saturates binary32 1
                ltac:(left; reflexivity)) as (H1 & _ & _).
  pose proof (float32_to_int16_saturates binary32 (-2)
                ltac:(left; reflexivity)) as (_ & L2 & _).
  pose proof (float32_to_int16_saturates binary32 (-1)
                ltac:(left; reflexivity)) as (_ & L1 & _).
  split.
  - rewrite H2, H1 by discriminate. reflexivity.
  - rewrite L2, L1 by discriminate. reflexivity.
Defined.

(** X3.  [float32_to_int16] preserves order: a louder sample never converts
    to a smaller fixed-point value. *)
Theorem float32_to_int16_monotone (f : format) (xs ys : list Q) :
  In f [binary32; binary64] ->
  Forall2 Qle xs ys ->
  Forall2 Z.le (float32_to_int16 (FloatArr f xs))
               (float32_to_int16 (FloatArr f ys)).
Proof.
  intros Hf H. cbn [float32_to_int16 float_format values].
  induction H as [| x y xs ys Hxy _ IH]; cbn [map]; constructor.
  - now apply fixed_sample_mono.
  - exact IH.
Qed.

Lemma float32_to_int16_monotone_witness :
  Forall2 Z.le
    (float32_to_int16 (FloatArr binary32 [(1 # 3)%Q; (-1 # 2)%Q]))
    (float32_to_int16 (FloatArr binary32 [(1 # 2)%Q; (-1 # 3)%Q])).
Proof.
  apply (float32_to_int16_monotone binary32).
  - left. reflexivity.
  - repeat constructor; discriminate.
Defined.

Section BackAndForth.
Local Open Scope Q_scope.

Lemma int16_as_rational (v : Z) :
  is_int16 v -> -32768 <= inject_Z v <= 32767.
Proof.
  unfold is_int16. intros H.
  change (-32768) with (inject_Z (-32768)). change 32767 with (inject_Z 32767).
  rewrite <- !Zle_Qle. lia.
Qed.

(** X4.  [int16_to_float32] is exact: a 16-bit sample [v] becomes the
    single-precision number [v / 32768], which lies in [-1, 1). *)
Theorem int16_to_float32_values (xs : list Z) :
  Forall is_int16 xs ->
  Forall2 (fun y v => y == inject_Z v / 32768 /\ -1 <= y < 1)
          (int16_to_float32 xs) xs.
Proof.
  intros H. unfold int16_to_float32.
  induction H as [| v xs Hv _ IH]; cbn [map]; constructor; [| exact IH].
  pose proof (int16_to_float32_exact v Hv) as E.
  pose proof (int16_as_rational v Hv) as R.
  split; [exact E |]. rewrite E. unfold Qdiv.
  change (/ 32768) with (1 # 32768). split; lra.
Qed.

Lemma int16_to_float32_values_witness :
  Forall2 (fun y v => y == inject_Z v / 32768 /\ -1 <= y < 1)
          (int16_to_float32 [16384; -32768; 32767]%Z) [16384; -32768; 32767]%Z.
Proof.
  apply (int16_to_float32_values [16384; -32768; 32767]%Z).
  repeat constructor; unfold is_int16; lia.
Defined.

(** The product [v / 32768 * 32767] in single precision, truncated. *)
Lemma back_to_fixed (v : Z) (y : Q) :
  is_int16 v -> y == inject_Z v / 32768 ->
  trunc (fmul binary32 y (inject_Z 32767)) = (v - Z.sgn v)%Z.
Proof.
  intros Hv Ey. pose proof (int16_as_rational v Hv) as R.
  unfold fmul. change (inject_Z 32767) with 32767.
  set (p := inject_Z (v * 32767) * 2 ^ (-15)).
  assert (Ep : y * 32767 == p).
  { unfold p. rewrite Ey, inject_Z_mult.
    change (2 ^ (-15)) with (1 # 32768). change (inject_Z 32767) with 32767.
    field. }
  rewrite (fround_comp binary32 _ _ Ep).
  assert (Pv : p == inject_Z v - inject_Z v * (1 # 32768)).
  { unfold p. rewrite inject_Z_mult.
    change (2 ^ (-15)) with (1 # 32768). change (inject_Z 32767) with 32767.
    ring. }
  assert (Dp : p == inject_Z (v * 32767) * 2 ^ (-15)) by reflexivity.
  clearbody p. clear Ep Ey y.
  assert (B15 : Qabs p < 2 ^ 15).
  { apply Qabs_Qlt_condition. change (2 ^ 15) with 32768. rewrite Pv.
    split; lra. }
  unfold is_int16 in Hv.
  destruct (Z_lt_le_dec (Z.abs v) 64) as [Small | Big].
  - (* the product is a single-precision number *)
    assert (B6 : Qabs p < 2 ^ 6).
    { apply Qabs_Qlt_condition. change (2 ^ 6) with 64. rewrite Pv.
      assert (-64 < inject_Z v < 64).
      { change (-64) with (inject_Z (-64)). change 64 with (inject_Z 64).
        rewrite <- !Zlt_Qlt. lia. }
      split; lra. }
    assert (Ex : fround binary32 p == p).
    { apply (fround_exact binary32 p (v * 32767) (-15) 6);
        [exact Dp | exact B6 | cbn; lia | cbn; lia]. }
    rewrite (trunc_comp _ _ Ex). unfold trunc.
    destruct (Z.lt_trichotomy v 0) as [Neg | [Zero | Pos]].
    + assert (inject_Z v <= -1)
        by (change (-1) with (inject_Z (-1)); rewrite <- Zle_Qle; lia).
      destruct (Qle_bool 0 p) eqn:Bp; [apply Qle_bool_iff in Bp; lra |].
      rewrite Z.sgn_neg by lia.
      apply Z.le_antisymm.
      * assert (Hc : p <= inject_Z (v + 1))
          by (rewrite inject_Z_plus; change (inject_Z 1) with 1; lra).
        apply Qceiling_resp_le in Hc. rewrite Qceiling_Z in Hc. lia.
      * assert (Hc : inject_Z v < p) by lra.
        pose proof (Qle_ceiling p) as Hq.
        assert (v < Qceiling p)%Z; [| lia]. rewrite Zlt_Qlt. lra.
    + subst v. change (trunc p = 0%Z).
      rewrite (trunc_comp p 0); [reflexivity |].
      rewrite Pv. change (inject_Z 0) with 0. ring.
    + assert (1 <= inject_Z v)
        by (change 1 with (inject_Z 1); rewrite <- Zle_Qle; lia).
      destruct (Qle_bool 0 p) eqn:Bp;
        [| assert (C : 0 <= p) by lra; apply Qle_bool_iff in C; congruence].
      rewrite Z.sgn_pos by lia.
      apply Z.le_antisymm.
      * assert (Qfloor p < v)%Z; [| lia]. apply Qfloor_lt_int. lra.
      * apply Qfloor_ge_int. rewrite inject_Z_sub.
        change (inject_Z 1) with 1. lra.
  - (* the rounding stays strictly between two integers *)
    assert (Nz : ~ p == 0).
    { intros C. rewrite Pv in C.
      assert (inject_Z v <= -64 \/ 64 <= inject_Z v) as [N | P].
      { destruct (Z_lt_le_dec v 0); [left | right].
        - change (-64) with (inject_Z (-64)). rewrite <- Zle_Qle. lia.
        - change 64 with (inject_Z 64). rewrite <- Zle_Qle. lia. }
      - lra.
      - lra. }
    assert (Fe : (fexp binary32 (ilog2 (Qabs p)) <= -9)%Z)
      by (apply (fexp_le binary32 p 15 (-9)); [exact Nz | exact B15 | | ];
          cbn; lia).
    assert (B24 : Qabs p < 2 ^ prec binary32).
    { apply Qlt_le_trans with (2 ^ 15); [exact B15 | apply pow2_le; cbn; lia]. }
    destruct (Z_lt_le_dec v 0) as [Neg | Pos].
    + assert (V : inject_Z v <= -64)
        by (change (-64) with (inject_Z (-64)); rewrite <- Zle_Qle; lia).
      rewrite Z.sgn_neg by lia.
      assert (Lo : inject_Z (512 * v + 1) * 2 ^ (-9) <= fround binary32 p).
      { apply fround_grid_le; [intros _; exact Fe |].
        rewrite Pv, inject_Z_plus, inject_Z_mult.
        change (2 ^ (-9)) with (1 # 512). change (inject_Z 512) with 512.
        change (inject_Z 1) with 1. lra. }
      assert (Hi : fround binary32 p <= inject_Z (v + 1)).
      { apply fround_int_ge; [cbn; lia | exact B24 |].
        rewrite Pv, inject_Z_plus. change (inject_Z 1) with 1. lra. }
      rewrite inject_Z_plus, inject_Z_mult in Lo.
      change (2 ^ (-9)) with (1 # 512) in Lo.
      change (inject_Z 512) with 512 in Lo. change (inject_Z 1) with 1 in Lo.
      rewrite inject_Z_plus in Hi. change (inject_Z 1) with 1 in Hi.
      unfold trunc.
      destruct (Qle_bool 0 (fround binary32 p)) eqn:Bp;
        [apply Qle_bool_iff in Bp; lra |].
      apply Z.le_antisymm.
      * assert (Hc : fround binary32 p <= inject_Z (v + 1))
          by (rewrite inject_Z_plus; change (inject_Z 1) with 1; lra).
        apply Qceiling_resp_le in Hc. rewrite Qceiling_Z in Hc. lia.
      * pose proof (Qle_ceiling (fround binary32 p)) as Hq.
        assert (v < Qceiling (fround binary32 p))%Z; [| lia].
        rewrite Zlt_Qlt. lra.
    + assert (V : 64 <= inject_Z v)
        by (change 64 with (inject_Z 64); rewrite <- Zle_Qle; lia).
      rewrite Z.sgn_pos by lia.
      assert (Hi : fround binary32 p <= inject_Z (512 * v - 1) * 2 ^ (-9)).
      { apply fround_grid_ge; [intros _; exact Fe |].
        rewrite Pv, inject_Z_sub, inject_Z_mult.
        change (2 ^ (-9)) with (1 # 512). change (inject_Z 512) with 512.
        change (inject_Z 1) with 1. lra. }
      assert (Lo : inject_Z (v - 1) <= fround binary32 p).
      { apply fround_int_le; [cbn; lia | exact B24 |].
        rewrite Pv, inject_Z_sub. change (inject_Z 1) with 1. lra. }
      rewrite inject_Z_sub, inject_Z_mult in Hi.
      change (2 ^ (-9)) with (1 # 512) in Hi.
      change (inject_Z 512) with 512 in Hi. change (inject_Z 1) with 1 in Hi.
      rewrite inject_Z_sub in Lo. change (inject_Z 1) with 1 in Lo.
      unfold trunc.
      destruct (Qle_bool 0 (fround binary32 p)) eqn:Bp;
        [| assert (C : 0 <= fround binary32 p) by lra;
           apply Qle_bool_iff in C; congruence].
      apply Z.le_antisymm.
      * assert (Qfloor (fround binary32 p) < v)%Z; [| lia].
        apply Qfloor_lt_int. lra.
      * apply Qfloor_ge_int. rewrite inject_Z_sub.
        change (inject_Z 1) with 1. lra.
Qed.

End BackAndForth.

(** X5.  Fixed point to float and back is not the identity:
    [float32_to_int16 (int16_to_float32 xs)] moves every non-zero sample one
    unit toward zero (the way there divides by 32768, the way back scales by
    32767 and truncates). *)
Theorem fixed_float_fixed_loses_one_unit (xs : list Z) :
  Forall is_int16 xs ->
  float32_to_int16 (FloatArr binary32 (int16_to_float32 xs))
  = map (fun v => v - Z.sgn v) xs.
Proof.
  intros H. unfold float32_to_int16.
  cbn [float_format values]. unfold int16_to_float32.
  induction H as [| v xs Hv _ IH]; [reflexivity |].
  cbn [map]. f_equal; [| exact IH].
  pose proof (int16_to_float32_exact v Hv) as Ey.
  pose proof (int16_as_rational v Hv) as R.
  set (y := fdiv binary32 (fround binary32 (inject_Z v)) (inject_Z 32768)) in *.
  rewrite (proj1 (fixed_sample binary32 ltac:(left; reflexivity) y)).
  assert (Ry : (-1 <= y <= 1)%Q).
  { rewrite Ey. unfold Qdiv. change (/ 32768)%Q with (1 # 32768)%Q.
    clearbody y. split; lra. }
  rewrite clip_id by exact Ry.
  now apply back_to_fixed.
Qed.

Lemma fixed_float_fixed_loses_one_unit_witness :
  float32_to_int16 (FloatArr binary32 (int16_to_float32 [100; -100; 0; 32767; -32768]))
  = [99; -99; 0; 32766; -32767].
Proof.
  apply (fixed_float_fixed_loses_one_unit [100; -100; 0; 32767; -32768]).
  repeat constructor; unfold is_int16; lia.
Defined.

Module Base64More.
Import Base64 Base64Facts.

Lemma table_b2a_alpha (v : Z) :
  0 <= v < 64 -> is_alpha (table_b2a_base64 v) = true.
Proof.
  intros Hv. destruct (sextet_table v Hv) as [Hp Ht].
  unfold is_alpha. rewrite Hp, Ht. cbn [negb andb]. apply Z.ltb_lt. lia.
Qed.

Lemma b2a_base64_nonempty (b : Z) (bs : list Z) :
  b2a_base64 (b :: bs) <> EmptyString.
Proof. destruct bs as [| b1 [| b2 rest]]; discriminate. Qed.

Lemma valid_b2a (bs : list Z) :
  Forall is_byte bs -> valid_base64 (b2a_base64 bs) = true.
Proof.
  induction bs as [| b0 | b0 b1 | b0 b1 b2 rest IH] using list_ind3;
    intros Hall.
  - reflexivity.
  - inversion_clear Hall as [| ? ? H0 _].
    destruct (sextet_ranges b0 0 0 H0 is_byte_0 is_byte_0) as (R0 & R1 & _).
    cbn [b2a_base64 valid_base64].
    rewrite !table_b2a_alpha by assumption. rewrite pad_pad_true.
    cbn [andb orb]. now rewrite orb_true_r.
  - inversion_clear Hall as [| ? ? H0 Hall'].
    inversion_clear Hall' as [| ? ? H1 _].
    destruct (sextet_ranges b0 b1 0 H0 H1 is_byte_0) as (R0 & R1 & R2 & _).
    cbn [b2a_base64 valid_base64].
    rewrite !table_b2a_alpha by assumption. rewrite pad_pad_true.
    cbn [andb orb]. now rewrite orb_true_r.
  - inversion_clear Hall as [| ? ? H0 Hall'].
    inversion_clear Hall' as [| ? ? H1 Hall''].
    inversion_clear Hall'' as [| ? ? H2 Hrest].
    destruct (sextet_ranges b0 b1 b2 H0 H1 H2) as (R0 & R1 & R2 & R3).
    cbn [b2a_base64 valid_base64].
    rewrite !table_b2a_alpha by assumption. cbn [andb orb].
    destruct rest as [| b3 rest'].
    + reflexivity.
    + destruct (b2a_base64 (b3 :: rest')) eqn:E.
      * exfalso. now apply (b2a_base64_nonempty b3 rest').
      * now apply IH.
Qed.

Lemma length_b2a (bs : list Z) :
  String.length (b2a_base64 bs) = (4 * ((List.length bs + 2) / 3))%nat.
Proof.
  induction bs as [| b0 | b0 b1 | b0 b1 b2 rest IH] using list_ind3;
    try reflexivity.
  cbn [b2a_base64 String.length List.length]. rewrite IH.
  replace (S (S (S (List.length rest))) + 2)%nat
    with (1 * 3 + (List.length rest + 2))%nat by lia.
  rewrite Nat.div_add_l by lia. lia.
Qed.

End Base64More.

(** X6.  [encode_audio_to_base64] always produces valid padded base64 in
    ASCII, of [4 * ceil (2 n / 3)] characters for [n] samples, standing for
    the little-endian bytes of the buffer. *)
Theorem encode_gives_valid_base64 (buf : list Z) :
  Base64.valid_base64 (encode_audio_to_base64 buf) = true /\
  Base64.is_ascii (encode_audio_to_base64 buf) = true /\
  String.length (encode_audio_to_base64 buf)
  = (4 * ((2 * List.length buf + 2) / 3))%nat /\
  Base64.rfc4648_decode (encode_audio_to_base64 buf) = tobytes buf.
Proof.
  unfold encode_audio_to_base64, Base64.b64encode.
  pose proof (tobytes_range buf) as Hb.
  split; [now apply Base64More.valid_b2a |].
  split; [apply Base64Facts.is_ascii_b2a |].
  split; [now rewrite Base64More.length_b2a, tobytes_length |].
  pose proof (Base64Facts.a2b_loop_valid _ (Base64More.valid_b2a _ Hb) []) as V.
  rewrite (Base64Facts.a2b_loop_b2a _ Hb) in V. cbn [app] in V. congruence.
Qed.

(** X7.  Distinct 16-bit buffers have distinct transport strings. *)
Theorem encode_injective (a b : list Z) :
  Forall is_int16 a -> Forall is_int16 b ->
  a <> b -> encode_audio_to_base64 a <> encode_audio_to_base64 b.
Proof.
  intros Ha Hb Hab E. apply Hab.
  assert (D : forall x, Forall is_int16 x ->
              decode_base64_to_audio (encode_audio_to_base64 x) = Ok x).
  { intros x Hx. unfold decode_base64_to_audio, encode_audio_to_base64.
    rewrite Base64Facts.b64decode_b64encode by apply tobytes_range.
    cbn [bind]. now apply frombuffer_tobytes. }
  pose proof (D a Ha) as Da. rewrite E, (D b Hb) in Da. congruence.
Qed.

Lemma encode_injective_witness :
  encode_audio_to_base64 [1; -1] <> encode_audio_to_base64 [1; -2].
Proof.
  apply (encode_injective [1; -1] [1; -2]);
    [repeat constructor; unfold is_int16; lia
    | repeat constructor; unfold is_int16; lia
    | discriminate].
Defined.

Module DecoderFacts.
Import Base64 Base64Facts.

(** A character that is neither of the alphabet nor the pad. *)
Lemma a2b_loop_skip (c : ascii) (rest : string) (quad_pos leftchar pads : Z)
      (bin : list Z) :
  is_alpha c = false -> is_pad c = false ->
  a2b_loop (String c rest) quad_pos leftchar pads bin
  = a2b_loop rest quad_pos leftchar pads bin.
Proof.
  intros Ha Hp. cbn [a2b_loop]. rewrite Hp.
  unfold is_alpha in Ha. rewrite Hp in Ha. cbn [negb andb] in Ha.
  apply Z.ltb_ge in Ha.
  destruct (64 <=? table_a2b_base64 c) eqn:E; [reflexivity |].
  apply Z.leb_gt in E. lia.
Qed.

Lemma a2b_loop_insert (c : ascii) (s1 s2 : string) :
  is_alpha c = false -> is_pad c = false ->
  forall quad_pos leftchar pads bin,
    a2b_loop (s1 ++ String c s2) quad_pos leftchar pads bin
    = a2b_loop (s1 ++ s2) quad_pos leftchar pads bin.
Proof.
  intros Ha Hp.
  induction s1 as [| c1 s1 IH]; intros quad_pos leftchar pads bin.
  - now apply a2b_loop_skip.
  - cbn [String.append a2b_loop].
    repeat match goal with
           | |- context [if ?b then _ else _] => destruct b
           end; try reflexivity; apply IH.
Qed.

Lemma is_ascii_insert (c : ascii) (s1 s2 : string) :
  code c < 128 -> is_ascii (s1 ++ String c s2) = is_ascii (s1 ++ s2).
Proof.
  intros Hc. induction s1 as [| c1 s1 IH]; cbn [String.append is_ascii].
  - apply Z.ltb_lt in Hc. now rewrite Hc.
  - now rewrite IH.
Qed.

Lemma uchar_range (z : Z) : is_byte (uchar z).
Proof.
  unfold uchar, is_byte. change 255 with (Z.ones 8).
  rewrite Z.land_ones by lia. apply Z.mod_pos_bound. lia.
Qed.

Lemma a2b_loop_bytes (s : string) :
  forall quad_pos leftchar pads bin out,
    Forall is_byte bin ->
    a2b_loop s quad_pos leftchar pads bin = Ok out -> Forall is_byte out.
Proof.
  induction s as [| c rest IH]; intros quad_pos leftchar pads bin out Hb;
    cbn [a2b_loop].
  - destruct (quad_pos =? 0); [| discriminate]. now intros [= <-].
  - assert (Hs : forall z, Forall is_byte (bin ++ [uchar z])).
    { intros z. apply Forall_app. split; [exact Hb |].
      constructor; [apply uchar_range | constructor]. }
    repeat match goal with
           | |- context [if ?b then _ else _] => destruct b
           end;
      try (intros [= <-]; exact Hb); try (apply IH; auto).
Qed.

End DecoderFacts.

Lemma list_ind2 {A : Type} (P : list A -> Prop) :
  P [] -> (forall a, P [a]) -> (forall a b l, P l -> P (a :: b :: l)) ->
  forall l, P l.
Proof.
  intros H0 H1 H2.
  fix IH 1.
  intros [| a [| b l]]; [exact H0 | apply H1 | apply H2; apply IH].
Qed.

Lemma int16_of_bytes_range (lo hi : Z) :
  is_byte lo -> is_byte hi -> is_int16 (int16_of_bytes lo hi).
Proof.
  unfold is_int16, int16_of_bytes, is_byte. intros Hlo Hhi.
  destruct (lo + 256 * hi <? 32768) eqn:E;
    [apply Z.ltb_lt in E | apply Z.ltb_ge in E]; lia.
Qed.

Lemma pairs_to_int16_range (bs : list Z) :
  Forall is_byte bs -> Forall is_int16 (pairs_to_int16 bs).
Proof.
  induction bs as [| lo | lo hi rest IH] using list_ind2;
    intros H; cbn [pairs_to_int16]; try constructor.
  - inversion_clear H as [| ? ? Hlo H']. inversion_clear H' as [| ? ? Hhi _].
    now apply int16_of_bytes_range.
  - apply IH. inversion_clear H as [| ? ? _ H'].
    now inversion_clear H' as [| ? ? _ H''].
Qed.

Lemma length_pairs_to_int16 (bs : list Z) :
  Z.even (Z.of_nat (List.length bs)) = true ->
  (2 * List.length (pairs_to_int16 bs) = List.length bs)%nat.
Proof.
  induction bs as [| lo | lo hi rest IH] using list_ind2;
    intros H; cbn [pairs_to_int16 List.length].
  - reflexivity.
  - discriminate H.
  - rewrite <- IH; [lia |].
    cbn [List.length] in H. rewrite !Nat2Z.inj_succ in H.
    rewrite <- Z.add_1_r, <- Z.add_1_r, <- Z.add_assoc in H.
    change (1 + 1) with (2 * 1) in H.
    now rewrite Z.even_add_mul_2 in H.
Qed.

(** X8.  [decode_base64_to_audio] skips any ASCII character that is neither
    of the base64 alphabet nor the pad, wherever it stands: a line break or
    a space inside the transport string does not change the result. *)
Theorem decode_skips_foreign_characters (c : ascii) (s1 s2 : string) :
  Base64.is_alpha c = false -> Base64.is_pad c = false ->
  Base64.code c < 128 ->
  decode_base64_to_audio (s1 ++ String c s2)
  = decode_base64_to_audio (s1 ++ s2).
Proof.
  intros Ha Hp Hc. unfold decode_base64_to_audio, Base64.b64decode.
  rewrite (DecoderFacts.is_ascii_insert c s1 s2 Hc).
  unfold Base64.a2b_base64.
  now rewrite (DecoderFacts.a2b_loop_insert c s1 s2 Ha Hp).
Qed.

Lemma decode_skips_foreign_characters_witness :
  decode_base64_to_audio ("ZACA" ++ String "010"%char "AP//")
  = decode_base64_to_audio ("ZACA" ++ "AP//").
Proof.
  apply (decode_skips_foreign_characters "010"%char "ZACA" "AP//");
    reflexivity.
Defined.

(** X9.  Whenever [decode_base64_to_audio] returns, the buffer holds 16-bit
    values, one per two decoded bytes, and encoding it and decoding again
    gives the same buffer. *)
Theorem decoded_buffer_is_int16 (s : string) (buf : list Z) :
  decode_base64_to_audio s = Ok buf ->
  Forall is_int16 buf /\
  decode_base64_to_audio (encode_audio_to_base64 buf) = Ok buf /\
  exists bytes, Base64.b64decode s = Ok bytes /\
                (2 * List.length buf = List.length bytes)%nat.
Proof.
  unfold decode_base64_to_audio at 1.
  destruct (Base64.b64decode s) as [bytes | e] eqn:D; cbn [bind];
    [| discriminate].
  unfold frombuffer_int16.
  destruct (Z.even (Z.of_nat (List.length bytes))) eqn:Ev; [| discriminate].
  intros [= <-].
  assert (Hb : Forall is_byte bytes).
  { unfold Base64.b64decode, Base64.a2b_base64 in D.
    destruct (Base64.is_ascii s); [| discriminate].
    eapply DecoderFacts.a2b_loop_bytes; [| exact D]. constructor. }
  pose proof (pairs_to_int16_range bytes Hb) as Hr.
  split; [exact Hr |]. split.
  - unfold decode_base64_to_audio, encode_audio_to_base64.
    rewrite Base64Facts.b64decode_b64encode by apply tobytes_range.
    cbn [bind]. now apply frombuffer_tobytes.
  - exists bytes. split; [reflexivity | now apply length_pairs_to_int16].
Qed.

Lemma decoded_buffer_is_int16_witness :
  Forall is_int16 [100; 128; -1] /\
  decode_base64_to_audio (encode_audio_to_base64 [100; 128; -1])
  = Ok [100; 128; -1].
Proof.
  destruct (decoded_buffer_is_int16 "ZACAAP//" [100; 128; -1] eq_refl)
    as (H1 & H2 & _).
  split; assumption.
Defined.

Lemma decode_encode (buf : list Z) :
  Forall is_int16 buf ->
  decode_base64_to_audio (encode_audio_to_base64 buf) = Ok buf.
Proof.
  intros H. unfold decode_base64_to_audio, encode_audio_to_base64.
  rewrite Base64Facts.b64decode_b64encode by apply tobytes_range.
  cbn [bind]. now apply frombuffer_tobytes.
Qed.

Lemma float32_to_int16_is_int16 (a : ndarray) :
  In (float_format a) [binary32; binary64] ->
  Forall is_int16 (float32_to_int16 a).
Proof.
  intros Hf. unfold float32_to_int16.
  apply Forall_map, Forall_map, Forall_forall. intros x _.
  destruct (fixed_sample _ Hf x) as [E R]. rewrite E. unfold is_int16. lia.
Qed.

Lemma length_encode (buf : list Z) :
  String.length (encode_audio_to_base64 buf)
  = (4 * ((2 * List.length buf + 2) / 3))%nat.
Proof.
  unfold encode_audio_to_base64, Base64.b64encode.
  now rewrite Base64More.length_b2a, tobytes_length.
Qed.

(** X10.  At the input rate, [convert_to_gemini_input_format] with
    ['float32'] never raises; its string decodes to [float32_to_int16] of
    the input and has [4 * ceil (2 n / 3)] characters. *)
Theorem convert_to_input_format_decodes (a : ndarray) :
  In (float_format a) [binary32; binary64] ->
  exists s,
    convert_to_gemini_input_format a INPUT_SAMPLE_RATE "float32" = Ok s /\
    decode_base64_to_audio s = Ok (float32_to_int16 a) /\
    String.length s = (4 * ((2 * Z.to_nat (len a) + 2) / 3))%nat.
Proof.
  intros Hf. exists (encode_audio_to_base64 (float32_to_int16 a)).
  split; [reflexivity |]. split.
  - apply decode_encode. now apply float32_to_int16_is_int16.
  - rewrite length_encode. unfold float32_to_int16.
    now rewrite !length_map, length_values.
Qed.

Lemma convert_to_input_format_decodes_witness :
  exists s,
    convert_to_gemini_input_format
      (FloatArr binary32 [(1 # 3)%Q; (-3 # 1)%Q]) INPUT_SAMPLE_RATE "float32"
    = Ok s /\
    decode_base64_to_audio s
    = Ok (float32_to_int16 (FloatArr binary32 [(1 # 3)%Q; (-3 # 1)%Q])) /\
    String.length s = 8%nat.
Proof.
  apply (convert_to_input_format_decodes
           (FloatArr binary32 [(1 # 3)%Q; (-3 # 1)%Q])).
  left. reflexivity.
Defined.

Lemma trunc_fraction (x : Q) : (-1 < x < 1)%Q -> trunc x = 0.
Proof.
  intros [H1 H2]. unfold trunc.
  destruct (Qle_bool 0 x) eqn:B.
  - apply Qle_bool_iff in B. apply Z.le_antisymm.
    + assert (Qfloor x < 1); [| lia]. now apply Qfloor_lt_int.
    + now apply (Qfloor_ge_int 0).
  - assert (N : (x <= inject_Z 0)%Q).
    { apply Qnot_lt_le. intros C. apply Qlt_le_weak in C.
      apply Qle_bool_iff in C. change (Qle_bool 0 x = true) in C. congruence. }
    apply Qceiling_resp_le in N. rewrite Qceiling_Z in N.
    pose proof (Qle_ceiling x) as Hc.
    assert (-1 < Qceiling x); [| lia].
    rewrite Zlt_Qlt. change (inject_Z (-1)) with (-1)%Q. lra.
Qed.

(** X11.  With an [input_dtype] other than ['float32'], an int16 array is
    encoded as it is, while a float array is truncated, not scaled: float
    samples strictly between -1 and 1 are all sent as 0. *)
Theorem convert_to_input_format_other_dtype (input_dtype : string) :
  input_dtype <> "float32"%string ->
  (forall xs,
      convert_to_gemini_input_format (Int16Arr xs) INPUT_SAMPLE_RATE input_dtype
      = Ok (encode_audio_to_base64 xs)) /\
  (forall f xs,
      Forall (fun x => (-1 < x < 1)%Q) xs ->
      convert_to_gemini_input_format (FloatArr f xs) INPUT_SAMPLE_RATE
                                     input_dtype
      = Ok (encode_audio_to_base64 (repeat 0 (List.length xs)))).
Proof.
  intros Hd. apply String.eqb_neq in Hd.
  split.
  - intros xs. unfold convert_to_gemini_input_format.
    cbn [negb Z.eqb INPUT_SAMPLE_RATE Pos.eqb bind]. now rewrite Hd.
  - intros f xs Hx. unfold convert_to_gemini_input_format.
    cbn [negb Z.eqb INPUT_SAMPLE_RATE Pos.eqb bind]. rewrite Hd.
    do 2 f_equal.
    induction Hx as [| x xs Hx _ IH]; [reflexivity |].
    cbn [map List.length repeat]. f_equal; [| exact IH].
    unfold astype_int16. rewrite trunc_fraction by assumption. reflexivity.
Qed.

Lemma convert_to_input_format_other_dtype_witness :
  convert_to_gemini_input_format
    (FloatArr binary32 [(1 # 2)%Q; (-9 # 10)%Q]) INPUT_SAMPLE_RATE "int16"
  = Ok (encode_audio_to_base64 [0; 0]).
Proof.
  destruct (convert_to_input_format_other_dtype "int16" ltac:(discriminate))
    as [_ H].
  apply (H binary32 [(1 # 2)%Q; (-9 # 10)%Q]).
  repeat constructor.
Defined.

(** X12.  At the output rate, [convert_from_gemini_output_format] undoes
    [encode_audio_to_base64]: it returns the float samples for ['float32']
    and the fixed-point buffer itself for any other [output_dtype]. *)
Theorem convert_from_output_format_native_rate
  (buf : list Z) (output_dtype : string) :
  Forall is_int16 buf ->
  convert_from_gemini_output_format (encode_audio_to_base64 buf) output_dtype
                                    OUTPUT_SAMPLE_RATE
  = Ok (if String.eqb output_dtype "float32"
        then FloatArr binary32 (int16_to_float32 buf)
        else Int16Arr buf).
Proof.
  intros H. unfold convert_from_gemini_output_format.
  rewrite decode_encode by exact H. cbn [bind].
  cbn [negb Z.eqb OUTPUT_SAMPLE_RATE Pos.eqb].
  now destruct (String.eqb output_dtype "float32").
Qed.

Lemma convert_from_output_format_native_rate_witness :
  convert_from_gemini_output_format (encode_audio_to_base64 [5; -5]) "float64"
                                    OUTPUT_SAMPLE_RATE
  = Ok (Int16Arr [5; -5]).
Proof.
  apply (convert_from_output_format_native_rate [5; -5] "float64").
  repeat constructor; unfold is_int16; lia.
Defined.

(** X13.  Through both pipelines without resampling, float samples in
    [-1, 1] come back within [2/32768] of their value. *)
Theorem pipeline_roundtrip_error (f : format) (xs : list Q) :
  In f [binary32; binary64] ->
  Forall (fun x => (-1 <= x <= 1)%Q) xs ->
  exists s ys,
    convert_to_gemini_input_format (FloatArr f xs) INPUT_SAMPLE_RATE "float32"
    = Ok s /\
    convert_from_gemini_output_format s "float32" OUTPUT_SAMPLE_RATE
    = Ok (FloatArr binary32 ys) /\
    Forall2 (fun y x => (Qabs (y - x) < 1 # 16384)%Q) ys xs.
Proof.
  intros Hf Hx.
  exists (encode_audio_to_base64 (float32_to_int16 (FloatArr f xs))),
         (int16_to_float32 (float32_to_int16 (FloatArr f xs))).
  split; [reflexivity |]. split.
  - unfold convert_from_gemini_output_format.
    rewrite decode_encode by (now apply float32_to_int16_is_int16).
    reflexivity.
  - induction Hx as [| x xs Hx _ IH]; [constructor |].
    destruct (float_roundtrip_error f Hf x Hx) as (r & Er & Br).
    cbn [float32_to_int16 int16_to_float32 values float_format map] in Er |- *.
    injection Er as Er. constructor; [rewrite Er; exact Br | exact IH].
Qed.

Lemma pipeline_roundtrip_error_witness :
  exists s ys,
    convert_to_gemini_input_format
      (FloatArr binary32 [(1 # 3)%Q; (-1)%Q]) INPUT_SAMPLE_RATE "float32"
    = Ok s /\
    convert_from_gemini_output_format s "float32" OUTPUT_SAMPLE_RATE
    = Ok (FloatArr binary32 ys) /\
    Forall2 (fun y x => (Qabs (y - x) < 1 # 16384)%Q) ys [(1 # 3)%Q; (-1)%Q].
Proof.
  apply (pipeline_roundtrip_error binary32 [(1 # 3)%Q; (-1)%Q]).
  - left. reflexivity.
  - repeat constructor; discriminate.
Defined.

Section ChunkerMore.

Context {A : Type}.

Lemma length_chunks_from (size count : nat) (x : list A) :
  List.length (chunks_from size count x) = count.
Proof. unfold chunks_from. now rewrite length_map, length_seq. Qed.

Lemma chunks_from_sizes (size count : nat) (x : list A) :
  (0 < size)%nat -> (pred count * size < List.length x)%nat ->
  Forall (fun c => (1 <= List.length c <= size)%nat)
         (chunks_from size count x).
Proof.
  intros Hs Hc. unfold chunks_from. apply Forall_map, Forall_forall.
  intros k Hk. apply in_seq in Hk.
  rewrite length_firstn, length_skipn. nia.
Qed.

Lemma chunks_of_positive_duration (x : list A) (d : Z) :
  1 <= d < 2 ^ 49 ->
  let size := Z.to_nat (16 * d) in
  let count := Z.to_nat ((Z.of_nat (List.length x) + 16 * d - 1) / (16 * d)) in
  create_audio_chunks x d = Ok (chunks_from size count x) /\
  (List.length x <= count * size)%nat /\
  (x <> [] -> (pred count * size < List.length x)%nat) /\
  (x = [] -> count = 0%nat).
Proof.
  intros Hd size count.
  assert (Hcs : chunk_size d = Ok (16 * d)) by (apply chunk_size_exact; lia).
  assert (Hs : 0 < 16 * d) by lia.
  split; [exact (create_audio_chunks_pos x d (16 * d) Hcs Hs) |].
  remember (Z.of_nat (List.length x)) as n eqn:En.
  assert (Hq : 0 <= (n + 16 * d - 1) / (16 * d)) by (apply Z.div_pos; lia).
  pose proof (Z.mod_pos_bound (n + 16 * d - 1) (16 * d) Hs) as Hm.
  pose proof (Z.div_mod (n + 16 * d - 1) (16 * d) ltac:(lia)) as Hdm.
  split; [| split].
  - unfold count, size. nia.
  - intros Hx. assert (0 < n) by (destruct x; [contradiction | cbn in En; lia]).
    unfold count, size.
    assert (1 <= (n + 16 * d - 1) / (16 * d))
      by (apply Z.div_le_lower_bound; lia).
    nia.
  - intros ->. cbn in En. subst n. unfold count.
    replace ((0 + 16 * d - 1) / (16 * d)) with 0; [reflexivity |].
    symmetry. apply Z.div_small. lia.
Qed.

(** X14.  For a duration of [d >= 1] milliseconds, [create_audio_chunks]
    returns [ceil (len / size)] chunks with [size = 16000 * d / 1000], none
    of them empty and none longer than [size]. *)
Theorem chunk_count_and_sizes (x : list A) (d : Z) :
  1 <= d < 2 ^ 49 ->
  exists chunks,
    create_audio_chunks x d = Ok chunks /\
    Z.of_nat (List.length chunks)
    = (Z.of_nat (List.length x) + INPUT_SAMPLE_RATE * d / 1000 - 1)
      / (INPUT_SAMPLE_RATE * d / 1000) /\
    Forall (fun c => 1 <= Z.of_nat (List.length c)
                     <= INPUT_SAMPLE_RATE * d / 1000) chunks.
Proof.
  intros Hd.
  destruct (chunks_of_positive_duration x d Hd) as (Hc & _ & Hlow & Hnil).
  assert (Hfloor : INPUT_SAMPLE_RATE * d / 1000 = 16 * d).
  { unfold INPUT_SAMPLE_RATE. replace (16000 * d) with (16 * d * 1000) by lia.
    now rewrite Z.div_mul. }
  rewrite Hfloor. eexists. split; [exact Hc |]. split.
  - rewrite length_chunks_from, Z2Nat.id; [reflexivity |].
    apply Z.div_pos; lia.
  - destruct x as [| a x'].
    + rewrite (Hnil eq_refl). constructor.
    + eapply Forall_impl; [| apply chunks_from_sizes].
      * intros c Hlen. cbv beta in Hlen. lia.
      * lia.
      * apply Hlow. discriminate.
Qed.

(** X15.  Chunker and accumulation buffer compose: for a duration of
    [d >= 1] milliseconds ([d < 2^49]), adding the chunks of [x] to a new
    [AudioBuffer] and flushing gives [x] back, with [total_samples = len x];
    the buffer is empty exactly when [x] is. *)
Theorem chunks_refill_buffer (x : list A) (d sr : Z) :
  1 <= d < 2 ^ 49 ->
  exists chunks,
    create_audio_chunks x d = Ok chunks /\
    let self := run (map (@AddChunk A) chunks) (init sr) in
    fst (get_all_audio self) = x /\
    total_samples self = Z.of_nat (List.length x) /\
    fst (is_empty self) = match x with [] => true | _ :: _ => false end.
Proof.
  intros Hd.
  destruct (chunks_of_positive_duration x d Hd) as (Hc & Hup & Hlow & Hnil).
  eexists. split; [exact Hc |]. cbv zeta.
  set (chunks := chunks_from _ _ x) in *.
  assert (Hcat : List.concat chunks = x) by (now apply chunks_from_concat).
  pose proof (run_add_chunks chunks (init sr)) as Hb. cbn [init buffer app] in Hb.
  destruct (run_invariant (map (@AddChunk A) chunks) (init sr)) as [Hcons _];
    [reflexivity |].
  assert (Hflush : fst (get_all_audio (run (map (@AddChunk A) chunks) (init sr)))
                   = x).
  { unfold get_all_audio. rewrite Hb.
    destruct chunks; cbn [fst]; [| exact Hcat]. now rewrite <- Hcat. }
  split; [exact Hflush |]. split.
  - rewrite Hcons. unfold held_samples. rewrite Hb, <- Hcat.
    clear. induction chunks as [| c chunks IH]; [reflexivity |].
    cbn [fold_right List.concat]. rewrite length_app, Nat2Z.inj_add, IH.
    reflexivity.
  - cbn [is_empty fst]. rewrite Hb. unfold chunks.
    rewrite length_chunks_from.
    destruct x as [| a x'].
    + now rewrite (Hnil eq_refl).
    + specialize (Hlow ltac:(discriminate)).
      destruct (Z.to_nat ((Z.of_nat (List.length (a :: x')) + 16 * d - 1)
                          / (16 * d))) eqn:E;
        [cbn in Hup; lia | reflexivity].
Qed.

End ChunkerMore.

Lemma chunk_count_and_sizes_witness :
  exists chunks,
    create_audio_chunks (repeat 7 40) 1 = Ok chunks /\
    Z.of_nat (List.length chunks) = 3 /\
    Forall (fun c => 1 <= Z.of_nat (List.length c) <= 16) chunks.
Proof.
  apply (chunk_count_and_sizes (repeat 7 40) 1). lia.
Defined.

Lemma chunks_refill_buffer_witness :
  exists chunks,
    create_audio_chunks (repeat 7 40) 1 = Ok chunks /\
    let self := run (map (@AddChunk Z) chunks) (init 16000) in
    fst (get_all_audio self) = repeat 7 40 /\
    total_samples self = 40 /\
    fst (is_empty self) = false.
Proof.
  apply (chunks_refill_buffer (repeat 7 40) 1 16000). lia.
Defined.

Lemma Forall_firstn_skipn {A : Type} (P : A -> Prop) (n m : nat) (x : list A) :
  Forall P x -> Forall P (firstn n (skipn m x)).
Proof.
  intros H.
  assert (S : Forall P (skipn m x)).
  { rewrite <- (firstn_skipn m x) in H. now apply Forall_app in H. }
  rewrite <- (firstn_skipn n (skipn m x)) in S. now apply Forall_app in S.
Qed.

(** X16.  Streaming round trip: for a duration of [d >= 1] milliseconds
    ([d < 2^49]), [create_audio_chunks] returns chunks of a 16-bit buffer
    each of which survives [encode_audio_to_base64] then
    [decode_base64_to_audio], and the decoded chunks concatenate to the
    buffer. *)
Theorem chunked_stream_roundtrip (x : list Z) (d : Z) :
  1 <= d < 2 ^ 49 -> Forall is_int16 x ->
  exists chunks,
    create_audio_chunks x d = Ok chunks /\
    map (fun c => decode_base64_to_audio (encode_audio_to_base64 c)) chunks
    = map Ok chunks /\
    List.concat chunks = x.
Proof.
  intros Hd Hx.
  destruct (chunks_of_positive_duration x d Hd) as (Hc & Hup & _ & _).
  eexists. split; [exact Hc |]. split.
  - unfold chunks_from. rewrite !map_map. apply map_ext. intros k.
    apply decode_encode. now apply Forall_firstn_skipn.
  - now apply chunks_from_concat.
Qed.

Lemma chunked_stream_roundtrip_witness :
  exists chunks,
    create_audio_chunks (repeat (-3) 40) 2 = Ok chunks /\
    map (fun c => decode_base64_to_audio (encode_audio_to_base64 c)) chunks
    = map Ok chunks /\
    List.concat chunks = repeat (-3) 40.
Proof.
  apply (chunked_stream_roundtrip (repeat (-3) 40) 2); [lia |].
  apply Forall_forall. intros v Hv. apply repeat_spec in Hv. subst v.
  unfold is_int16. lia.
Defined.

Section AudioBufferMore.

Context {A : Type}.

Lemma run_app (l1 l2 : list (call A)) (self : AudioBuffer A) :
  run (l1 ++ l2) self = run l2 (run l1 self).
Proof. unfold run. apply fold_left_app. Qed.

Lemma held_samples_concat (self : AudioBuffer A) :
  held_samples self = Z.of_nat (List.length (List.concat (buffer self))).
Proof.
  unfold held_samples.
  induction (buffer self) as [| c chunks IH]; [reflexivity |].
  cbn [fold_right List.concat]. rewrite length_app, Nat2Z.inj_add, IH.
  reflexivity.
Qed.

Lemma reachable (sr : Z) (calls : list (call A)) :
  consistent (run calls (init sr)) /\ sample_rate (run calls (init sr)) = sr.
Proof. apply (run_invariant calls (init sr)). reflexivity. Qed.

(** X17.  [clear] forgets the history: whatever was called before it, the
    object is as newly constructed with the same sample rate. *)
Theorem clear_forgets_history (sr : Z) (before after : list (call A)) :
  run (before ++ Clear :: after) (init sr) = run after (init sr).
Proof.
  rewrite run_app. destruct (reachable sr before) as [_ Hs].
  unfold run at 1. cbn [fold_left step clear snd]. rewrite Hs. reflexivity.
Qed.

(** X18.  After any sequence of calls, the buffer flushed by [get_all_audio]
    has exactly [total_samples] samples, and [total_samples] is never
    negative. *)
Theorem flush_length_is_total_samples (sr : Z) (calls : list (call A)) :
  let self := run calls (init sr) in
  Z.of_nat (List.length (fst (get_all_audio self))) = total_samples self /\
  0 <= total_samples self.
Proof.
  cbv zeta. destruct (reachable sr calls) as [Hc _].
  set (self := run calls (init sr)) in *.
  assert (E : fst (get_all_audio self) = List.concat (buffer self))
    by (unfold get_all_audio; now destruct (buffer self)).
  rewrite E, Hc, held_samples_concat. split; [reflexivity | lia].
Qed.

(** X19.  An empty buffer holds no sample, but not conversely: adding an
    empty chunk makes [is_empty] false while [total_samples] and the flushed
    audio stay as they were. *)
Theorem is_empty_means_no_samples (sr : Z) (calls : list (call A)) :
  let self := run calls (init sr) in
  (fst (is_empty self) = true ->
   total_samples self = 0 /\ fst (get_all_audio self) = []) /\
  (let self' := snd (add_chunk [] self) in
   fst (is_empty self') = false /\
   total_samples self' = total_samples self /\
   fst (get_all_audio self') = fst (get_all_audio self)).
Proof.
  cbv zeta. destruct (reachable sr calls) as [Hc _].
  set (self := run calls (init sr)) in *.
  assert (E : forall s : AudioBuffer A,
             fst (get_all_audio s) = List.concat (buffer s))
    by (intros s; unfold get_all_audio; now destruct (buffer s)).
  split.
  - cbn [is_empty fst]. intros He. apply Nat.eqb_eq in He.
    apply length_zero_iff_nil in He.
    rewrite E, Hc. unfold held_samples. rewrite He. split; reflexivity.
  - cbn [add_chunk snd]. split; [| split].
    + cbn [is_empty fst buffer]. rewrite length_app. cbn [List.length].
      apply Nat.eqb_neq. lia.
    + cbn [total_samples List.length]. lia.
    + rewrite !E. cbn [buffer]. rewrite concat_app. cbn [List.concat].
      now rewrite !app_nil_r.
Qed.

Lemma total_after_adds (chunks : list (list A)) (sr : Z) :
  total_samples (run (map (@AddChunk A) chunks) (init sr))
  = Z.of_nat (List.length (List.concat chunks)).
Proof.
  destruct (reachable sr (map (@AddChunk A) chunks)) as [Hc _].
  rewrite Hc, held_samples_concat, run_add_chunks. reflexivity.
Qed.

(** X20.  When the chunks added to a new buffer hold [k * sample_rate]
    samples in all, [get_duration] is exactly [k] seconds, however the
    samples were split into chunks. *)
Theorem whole_seconds_duration (sr k : Z) (chunks : list (list A)) :
  0 < sr -> 0 <= k < 2 ^ 53 ->
  Z.of_nat (List.length (List.concat chunks)) = k * sr ->
  exists d,
    fst (get_duration (run (map (@AddChunk A) chunks) (init sr))) = Ok d /\
    (d == inject_Z k)%Q.
Proof.
  intros Hsr Hk Hlen. cbn [get_duration fst].
  destruct (reachable sr (map (@AddChunk A) chunks)) as [_ Hs].
  rewrite Hs, total_after_adds, Hlen.
  apply int_truediv_exact; lia.
Qed.

(** X21.  [get_duration] raises [ZeroDivisionError] exactly when the buffer
    was constructed with a sample rate of 0, whatever was called on it. *)
Theorem duration_fails_iff_zero_rate (sr : Z) (calls : list (call A)) :
  fst (get_duration (run calls (init sr))) = Raise ZeroDivisionError
  <-> sr = 0.
Proof.
  cbn [get_duration fst]. destruct (reachable sr calls) as [_ Hs].
  rewrite Hs. unfold int_truediv.
  destruct (sr =? 0) eqn:E.
  - apply Z.eqb_eq in E. tauto.
  - apply Z.eqb_neq in E.
    destruct (overflows binary64 _); split; intros H;
      try discriminate; contradiction.
Qed.

(** X22.  Adding a chunk never makes [get_duration] smaller (positive sample
    rate). *)
Theorem duration_grows_with_chunks
  (self : AudioBuffer A) (audio_chunk : list A) (d1 d2 : Q) :
  0 < sample_rate self ->
  fst (get_duration self) = Ok d1 ->
  fst (get_duration (snd (add_chunk audio_chunk self))) = Ok d2 ->
  (d1 <= d2)%Q.
Proof.
  intros Hsr. cbn [get_duration add_chunk fst snd sample_rate total_samples].
  unfold int_truediv.
  destruct (sample_rate self =? 0) eqn:E; [apply Z.eqb_eq in E; lia |].
  destruct (overflows binary64 _); [discriminate |]. intros [= <-].
  destruct (overflows binary64 _); [discriminate |]. intros [= <-].
  apply fround_mono; [reflexivity |].
  assert (S : (0 < inject_Z (sample_rate self))%Q)
    by (change 0%Q with (inject_Z 0); now rewrite <- Zlt_Qlt).
  apply Qmult_le_compat_r.
  - rewrite <- Zle_Qle. lia.
  - apply Qlt_le_weak, Qinv_lt_0_compat, S.
Qed.

End AudioBufferMore.

Lemma whole_seconds_duration_witness :
  exists d,
    fst (get_duration
           (run (map (@AddChunk Z) [repeat 0 5; repeat 1 7]) (init 4)))
    = Ok d /\ (d == inject_Z 3)%Q.
Proof.
  apply (whole_seconds_duration 4 3 [repeat 0 5; repeat 1 7]);
    [lia | lia | reflexivity].
Defined.

Lemma is_empty_means_no_samples_witness :
  fst (is_empty (run [AddChunk [1; 2]; Clear] (init 24000))) = true /\
  total_samples (run [AddChunk [1; 2]; Clear] (init 24000)) = 0.
Proof.
  destruct (is_empty_means_no_samples 24000 [AddChunk [1; 2]; Clear])
    as [H _].
  split; [reflexivity | exact (proj1 (H eq_refl))].
Defined.

Lemma duration_grows_with_chunks_witness :
  (2 <= 9 # 4)%Q.
Proof.
  apply (duration_grows_with_chunks
           (mkAudioBuffer 4 [[1; 2; 3; 4; 5; 6; 7; 8]] 8) [9]
           2%Q (9 # 4)%Q); reflexivity.
Defined.

Section ResampleMore.

Lemma fround_zero (f : format) (q : Q) : (q == 0)%Q -> fround f q = 0%Q.
Proof.
  intros H. unfold fround. apply Qeq_bool_iff in H. now rewrite H.
Qed.

(** What [resample_audio] returns when the rates differ. *)
Lemma resample_audio_result (a out : ndarray) (s t : Z) :
  s <> t -> resample_audio a s t = Ok out ->
  exists duration new_length indices,
    int_truediv (len a) s = Ok duration /\
    int_of_float_mul_int duration t = Ok new_length /\
    linspace (len a - 1) new_length = Ok indices /\
    values a <> [] /\
    out = FloatArr binary64
            (map (interp_at (map inject_Z (arange (len a))) (values a))
                 indices).
Proof.
  intros Hst. unfold resample_audio.
  destruct (s =? t) eqn:E; [apply Z.eqb_eq in E; contradiction |].
  destruct (int_truediv (len a) s) as [duration | e] eqn:Hd; [| discriminate].
  cbn [bind].
  destruct (int_of_float_mul_int duration t) as [new_length | e] eqn:Hn;
    [| discriminate].
  cbn [bind].
  destruct (linspace (len a - 1) new_length) as [indices | e] eqn:Hi;
    [| discriminate].
  cbn [bind]. unfold interp.
  remember (map inject_Z (arange (len a))) as xp0 eqn:Exp.
  destruct xp0 as [| x0 xp]; [discriminate |].
  destruct (Nat.eqb _ _); [| discriminate].
  cbn [bind]. intros [= <-].
  exists duration, new_length, indices.
  split; [reflexivity |]. split; [exact Hn |]. split; [exact Hi |].
  split; [| reflexivity].
  intros Hv. apply (f_equal (@List.length Q)) in Hv, Exp.
  rewrite length_values in Hv. rewrite length_map, length_arange in Exp.
  cbn [List.length] in Hv, Exp. lia.
Qed.

Lemma resample_audio_ok (a : ndarray) (s t : Z) (duration : Q)
      (new_length : Z) :
  s <> t -> 0 < len a ->
  int_truediv (len a) s = Ok duration ->
  int_of_float_mul_int duration t = Ok new_length ->
  0 <= new_length ->
  exists out,
    resample_audio a s t = Ok (FloatArr binary64 out) /\
    Z.of_nat (List.length out) = new_length.
Proof.
  intros Hst Ha Hd Hn Hn0.
  destruct (linspace_ok (len a - 1) new_length Hn0) as (indices & Hind & Hilen).
  destruct (interp_ok indices (map inject_Z (arange (len a))) (values a))
    as (out & Hout & Holen).
  { intros H. apply (f_equal (@List.length Q)) in H.
    rewrite length_map, length_arange in H. cbn in H. lia. }
  { now rewrite length_map, length_arange, length_values. }
  exists out. split.
  - unfold resample_audio.
    destruct (s =? t) eqn:E; [apply Z.eqb_eq in E; contradiction |].
    rewrite Hd. cbn [bind]. rewrite Hn. cbn [bind].
    rewrite Hind. cbn [bind]. rewrite Hout. reflexivity.
  - rewrite Holen, Hilen. now apply Z2Nat.id.
Qed.

Lemma resample_audio_empty (a : ndarray) (s t : Z) :
  s <> t -> len a = 0 -> raises (resample_audio a s t).
Proof.
  intros Hst Ha. unfold resample_audio, raises.
  destruct (s =? t) eqn:E; [apply Z.eqb_eq in E; contradiction |].
  destruct (int_truediv (len a) s) as [duration | e]; [| now exists e].
  cbn [bind].
  destruct (int_of_float_mul_int duration t) as [new_length | e];
    [| now exists e].
  cbn [bind].
  destruct (linspace (len a - 1) new_length) as [indices | e];
    [| now exists e].
  cbn [bind]. rewrite Ha. exists ValueError. reflexivity.
Qed.

End ResampleMore.

(** X23.  For positive rates of realistic size: with equal rates
    [resample_audio] returns its input unchanged, also the empty buffer;
    with distinct rates it raises exactly when the buffer is empty. *)
Theorem resample_raises_iff_empty (a : ndarray) (s t : Z) :
  0 < s < 2 ^ 53 -> 0 < t -> len a * t < 2 ^ 51 ->
  (s = t -> resample_audio a s t = Ok a) /\
  (s <> t -> (raises (resample_audio a s t) <-> len a = 0)).
Proof.
  intros Hs Ht Hnt. split.
  - intros <-. unfold resample_audio. now rewrite Z.eqb_refl.
  - intros Hst. split.
    + intros [e He].
      destruct (Z.eq_dec (len a) 0) as [Hz | Hnz]; [exact Hz |].
      assert (Hpos : 0 < len a) by (destruct a; cbn in *; lia).
      destruct (new_length_ok (len a) s t ltac:(lia) ltac:(lia) ltac:(lia) Hnt)
        as (duration & new_length & Hd & Hn & Hn0 & _).
      destruct (resample_audio_ok a s t duration new_length Hst Hpos Hd Hn Hn0)
        as (out & Hout & _).
      rewrite Hout in He. discriminate.
    + now apply resample_audio_empty.
Qed.

Lemma resample_raises_iff_empty_witness :
  (raises (resample_audio (Int16Arr []) 24000 16000) <-> 0 = 0) /\
  resample_audio (Int16Arr []) 24000 24000 = Ok (Int16Arr []).
Proof.
  destruct (resample_raises_iff_empty (Int16Arr []) 24000 16000
              ltac:(lia) ltac:(lia) ltac:(cbn; lia)) as [_ H].
  destruct (resample_raises_iff_empty (Int16Arr []) 24000 24000
              ltac:(lia) ltac:(lia) ltac:(cbn; lia)) as [H' _].
  split; [apply H; lia | apply H'; reflexivity].
Defined.

(** X24.  A whole number [k] of seconds of audio is resampled to exactly
    [k * target_sr] samples (16000 samples at 16 kHz give 24000 at 24 kHz):
    here the double-precision length computation is exact. *)
Theorem resample_whole_seconds (a : ndarray) (s t k : Z) :
  0 < s -> 0 < t -> s <> t -> 0 < k -> k * t < 2 ^ 53 ->
  len a = k * s ->
  exists out,
    resample_audio a s t = Ok (FloatArr binary64 out) /\
    Z.of_nat (List.length out) = k * t.
Proof.
  intros Hs Ht Hst Hk Hkt Hlen.
  destruct (int_truediv_exact (len a) s k ltac:(lia) Hlen ltac:(nia))
    as (duration & Hd & Ed).
  apply (resample_audio_ok a s t duration (k * t)); try assumption; try nia.
  unfold int_of_float_mul_int, float_of_int.
  assert (Et : (fround binary64 (inject_Z t) == inject_Z t)%Q)
    by (apply fround_exact_int; [reflexivity | cbn; lia | cbn; nia | cbn; lia]).
  rewrite (overflows_small _ t Et) by nia. cbn [bind]. unfold fmul.
  assert (Ep : (duration * fround binary64 (inject_Z t) == inject_Z (k * t))%Q)
    by (rewrite Ed, Et, inject_Z_mult; reflexivity).
  assert (Er : (fround binary64 (duration * fround binary64 (inject_Z t))
                == inject_Z (k * t))%Q)
    by (apply fround_exact_int; [exact Ep | cbn; lia | cbn; nia | cbn; lia]).
  rewrite (overflows_small _ (k * t) Er) by nia.
  now rewrite (trunc_comp _ _ Er), trunc_inject.
Qed.

Lemma resample_whole_seconds_witness :
  exists out,
    resample_audio (Int16Arr (repeat 5 32)) 16 24 = Ok (FloatArr binary64 out) /\
    Z.of_nat (List.length out) = 48.
Proof.
  apply (resample_whole_seconds (Int16Arr (repeat 5 32)) 16 24 2);
    try lia; reflexivity.
Defined.

Section Interpolation.

Lemma linspace_first (stop num : Z) (x : Q) (indices rest : list Q) :
  linspace stop num = Ok indices -> indices = x :: rest -> x = 0%Q.
Proof.
  unfold linspace. destruct (num <? 0); [discriminate |].
  intros [= <-]. unfold arange.
  destruct (Z.to_nat num) as [| n]; [discriminate |].
  cbn [seq map]. change (Z.of_nat 0) with 0.
  remember (num - 1) as div eqn:Ediv.
  intros [= <- _].
  assert (Z0 : forall q, fmul binary64 (inject_Z 0) q = 0%Q)
    by (intros q; unfold fmul; apply fround_zero; ring).
  assert (Z1 : forall q, fmul binary64 (fdiv binary64 (inject_Z 0) (inject_Z div)) q
                         = 0%Q).
  { intros q. unfold fmul, fdiv.
    rewrite (fround_zero binary64 (inject_Z 0 / inject_Z div))
      by (unfold Qdiv; ring).
    apply fround_zero. ring. }
  destruct div as [| p | p]; cbn [Z.ltb Z.eqb Z.compare andb].
  - apply Z0.
  - destruct (Qeq_bool _ 0); [apply Z1 | apply Z0].
  - apply Z0.
Qed.

Lemma linspace_last (stop num : Z) (indices : list Q) :
  linspace stop num = Ok indices -> 2 <= num ->
  last indices 0%Q = fround binary64 (inject_Z stop).
Proof.
  unfold linspace. destruct (num <? 0); [discriminate |].
  intros [= <-] Hn. unfold arange.
  destruct (Z.to_nat num) as [| n] eqn:En; [lia |].
  rewrite seq_S, !map_app. cbn [map]. rewrite last_last.
  replace (Z.of_nat (0 + n)) with (num - 1) by lia.
  destruct (0 <? num - 1) eqn:D; [| apply Z.ltb_ge in D; lia].
  now rewrite Z.eqb_refl.
Qed.

Lemma interp_at_origin (x1 y0 : Q) (xs ys : list Q) :
  (0 < x1)%Q ->
  (forall xs', interp_at (inject_Z 0 :: xs') [y0] 0%Q = y0) /\
  interp_at [inject_Z 0] (y0 :: ys) 0%Q = y0 /\
  interp_at (inject_Z 0 :: x1 :: xs) (y0 :: ys) 0%Q = y0.
Proof.
  intros H1. split; [| split].
  - intros [| x' xs']; reflexivity.
  - reflexivity.
  - cbn [interp_at]. change (Qlt_bool 0 (inject_Z 0)) with false.
    cbn iota. destruct ys as [| y1 ys']; [reflexivity |].
    cbn [interp_from].
    assert (B : Qlt_bool 0 x1 = true).
    { unfold Qlt_bool. destruct (Qle_bool x1 0) eqn:E; [| reflexivity].
      apply Qle_bool_iff in E. lra. }
    rewrite B. reflexivity.
Qed.

Lemma last_cons_default {A : Type} (l : list A) :
  forall (a d : A), last (a :: l) d = last l a.
Proof.
  induction l as [| b l IH]; intros a d; [reflexivity |].
  change (last (a :: b :: l) d) with (last (b :: l) d).
  now rewrite !IH.
Qed.

Lemma last_map_cons {A B : Type} (g : A -> B) (l : list A) :
  forall (a d : A) (e : B), last (map g (a :: l)) e = g (last (a :: l) d).
Proof.
  induction l as [| b l IH]; intros a d e; [reflexivity |].
  change (last (map g (b :: l)) e = g (last (b :: l) d)). apply IH.
Qed.

Lemma interp_from_beyond (x : Q) (xs : list Q) :
  forall ys xj yj,
    List.length xs = List.length ys ->
    Forall (fun x1 => (x1 <= x)%Q) xs ->
    interp_from x xj yj xs ys = last ys yj.
Proof.
  induction xs as [| x1 xs IH]; intros ys xj yj Hlen Hall.
  - destruct ys; [reflexivity | discriminate].
  - destruct ys as [| y1 ys]; [discriminate |].
    inversion_clear Hall as [| ? ? H1 Hrest].
    cbn [interp_from].
    assert (B : Qlt_bool x x1 = false).
    { unfold Qlt_bool. apply Qle_bool_iff in H1. now rewrite H1. }
    rewrite B, IH by (cbn in Hlen; auto; lia).
    now rewrite !last_cons_default.
Qed.

Lemma interp_from_const (c x : Q) (xs : list Q) :
  representable binary64 c ->
  forall ys xj yj,
    (yj == c)%Q -> Forall (fun y => (y == c)%Q) ys ->
    (interp_from x xj yj xs ys == c)%Q.
Proof.
  intros Hc. induction xs as [| x1 xs IH]; intros ys xj yj Hj Hall.
  - exact Hj.
  - destruct ys as [| y1 ys]; [exact Hj |].
    inversion_clear Hall as [| ? ? H1 Hrest].
    cbn [interp_from].
    destruct (Qlt_bool x x1); [| now apply IH].
    destruct (Qeq_bool xj x); [exact Hj |].
    unfold fadd, fmul, fdiv, fsub.
    rewrite (fround_zero binary64 (y1 - yj)) by (rewrite H1, Hj; ring).
    rewrite (fround_zero binary64 (0 / fround binary64 (x1 - xj)))
      by (unfold Qdiv; ring).
    rewrite (fround_zero binary64 (0 * fround binary64 (x - xj))) by ring.
    rewrite (fround_comp binary64 (0 + yj) c) by (rewrite Hj; ring).
    exact Hc.
Qed.

Lemma arange_le (n : Z) :
  Forall (fun k => 0 <= k <= n - 1) (arange n).
Proof.
  unfold arange. apply Forall_map, Forall_forall. intros k Hk.
  apply in_seq in Hk. lia.
Qed.

End Interpolation.

(** X25.  Resampling keeps the end points: the first output sample is the
    first input sample, and with two output samples or more the last one is
    the last input sample. *)
Theorem resample_keeps_endpoints (a : ndarray) (f : format) (out : list Q)
        (s t : Z) :
  s <> t -> len a < 2 ^ 53 ->
  resample_audio a s t = Ok (FloatArr f out) ->
  (out <> [] -> hd_error out = hd_error (values a)) /\
  (2 <= Z.of_nat (List.length out) ->
   last out 0%Q = last (values a) 0%Q).
Proof.
  intros Hst Hlen Hr.
  destruct (resample_audio_result a _ s t Hst Hr)
    as (duration & new_length & indices & _ & _ & Hi & Hv & Eo).
  injection Eo as _ Eo.
  assert (Hla : 0 < len a).
  { pose proof (length_values a) as L.
    destruct (values a); [contradiction | cbn in L; lia]. }
  assert (Exp : exists xs, map inject_Z (arange (len a)) = inject_Z 0 :: xs /\
                           (forall x1 rest, xs = x1 :: rest -> (0 < x1)%Q)).
  { unfold arange. destruct (Z.to_nat (len a)) as [| n] eqn:En; [lia |].
    cbn [seq map Z.of_nat]. eexists. split; [reflexivity |].
    intros x1 rest E. destruct n as [| n]; [discriminate |].
    cbn [seq map] in E. injection E as <- _. reflexivity. }
  destruct Exp as (xs & Exp & Hx1).
  split.
  - intros Hne. rewrite Eo in Hne |- *.
    destruct indices as [| x rest]; [contradiction |].
    rewrite (linspace_first _ _ x _ rest Hi eq_refl).
    cbn [map hd_error]. rewrite Exp.
    destruct (values a) as [| y0 ys]; [contradiction |]. cbn [hd_error].
    f_equal. destruct xs as [| x1 xs'].
    + destruct ys; reflexivity.
    + apply (interp_at_origin x1 y0 xs' ys (Hx1 x1 xs' eq_refl)).
  - intros Hn. rewrite Eo in Hn |- *. rewrite length_map in Hn.
    assert (Hnl : 2 <= new_length).
    { destruct (Z_lt_le_dec new_length 2) as [C | C]; [| exact C].
      exfalso. unfold linspace in Hi.
      destruct (new_length <? 0); [discriminate |].
      injection Hi as <-. rewrite length_map, length_arange in Hn. lia. }
    pose proof (linspace_last _ _ _ Hi Hnl) as Hlast.
    destruct indices as [| i0 irest]; [cbn in Hn; lia |].
    rewrite (last_map_cons _ irest i0 0%Q), Hlast.
    assert (Ex : (fround binary64 (inject_Z (len a - 1))
                  == inject_Z (len a - 1))%Q)
      by (apply fround_exact_int; [reflexivity | cbn; lia | cbn; lia | cbn; lia]).
    pose proof (length_values a) as Lv.
    destruct (values a) as [| y0 ys] eqn:Ev; [contradiction |].
    unfold arange. destruct (Z.to_nat (len a)) as [| n] eqn:En; [lia |].
    cbn [seq]. rewrite !map_map. cbn [map interp_at]. change (Z.of_nat 0) with 0.
    assert (B : Qlt_bool (fround binary64 (inject_Z (len a - 1))) (inject_Z 0)
                = false).
    { unfold Qlt_bool.
      assert (L : (inject_Z 0 <= fround binary64 (inject_Z (len a - 1)))%Q)
        by (rewrite Ex, <- Zle_Qle; lia).
      apply Qle_bool_iff in L. now rewrite L. }
    rewrite B. rewrite interp_from_beyond.
    + now rewrite last_cons_default.
    + rewrite length_map, length_seq. cbn [List.length] in Lv. lia.
    + apply Forall_map, Forall_forall. intros k Hk. apply in_seq in Hk.
      rewrite Ex, <- Zle_Qle. lia.
Qed.

Lemma resample_keeps_endpoints_witness :
  hd_error [(1 # 2)%Q; (3002399751580331 # 9007199254740992)%Q;
            (9007199254740991 # 18014398509481984)%Q; 1%Q] = Some (1 # 2)%Q /\
  last [(1 # 2)%Q; (3002399751580331 # 9007199254740992)%Q;
        (9007199254740991 # 18014398509481984)%Q; 1%Q] 0%Q = 1%Q.
Proof.
  destruct (resample_keeps_endpoints
              (FloatArr binary32 [(1 # 2)%Q; (1 # 4)%Q; 1%Q]) binary64
              [(1 # 2)%Q; (3002399751580331 # 9007199254740992)%Q;
               (9007199254740991 # 18014398509481984)%Q; 1%Q]
              16000 24000) as [H1 H2];
    [lia | cbn; lia | vm_compute; reflexivity |].
  split; [apply H1; discriminate | apply H2; cbn; lia].
Defined.

(** X26.  Resampling a constant signal gives the same constant: silence
    stays silence, whatever the rates. *)
Theorem resample_keeps_constant (a : ndarray) (f : format) (out : list Q)
        (s t : Z) (c : Q) :
  s <> t -> representable binary64 c ->
  Forall (fun y => (y == c)%Q) (values a) ->
  resample_audio a s t = Ok (FloatArr f out) ->
  Forall (fun y => (y == c)%Q) out.
Proof.
  intros Hst Hc Hall Hr.
  destruct (resample_audio_result a _ s t Hst Hr)
    as (duration & new_length & indices & _ & _ & _ & Hv & Eo).
  injection Eo as _ ->.
  apply Forall_map, Forall_forall. intros x _.
  pose proof (length_values a) as Lv.
  remember (map inject_Z (arange (len a))) as xp eqn:Exp.
  apply (f_equal (@List.length Q)) in Exp.
  rewrite length_map, length_arange, <- Lv in Exp.
  destruct (values a) as [| y0 ys]; [contradiction |].
  destruct xp as [| x0 xs]; [discriminate Exp |].
  inversion_clear Hall as [| ? ? H0 Hrest].
  cbn [interp_at]. destruct (Qlt_bool x x0); [exact H0 |].
  now apply interp_from_const.
Qed.

Lemma resample_keeps_constant_witness :
  Forall (fun y => (y == 3 # 4)%Q) [(3 # 4)%Q; (3 # 4)%Q; (6 # 8)%Q].
Proof.
  apply (resample_keeps_constant
           (FloatArr binary32 [(3 # 4)%Q; (6 # 8)%Q]) binary64
           [(3 # 4)%Q; (3 # 4)%Q; (6 # 8)%Q] 2 3 (3 # 4)%Q).
  - lia.
  - vm_compute. reflexivity.
  - repeat constructor.
  - vm_compute. reflexivity.
Defined.


(** X27.  [sounddevice_to_base64] sends channel 0 only: the string decodes
    to [float32_to_int16] of channel 0, and neither the other channels nor
    the [frames] argument change it. *)
Theorem sounddevice_sends_channel_0 (f : format) (rows : list (Q * list Q))
        (frames : Z) :
  In f [binary32; binary64] ->
  exists s,
    sounddevice_to_base64 (Sd2D f rows) frames = Ok s /\
    decode_base64_to_audio s
    = Ok (float32_to_int16 (FloatArr f (map fst rows))) /\
    sounddevice_to_base64 (Sd1D (FloatArr f (map fst rows))) frames = Ok s /\
    forall rows' frames',
      map fst rows' = map fst rows ->
      sounddevice_to_base64 (Sd2D f rows') frames' = Ok s.
Proof.
  intros Hf.
  exists (encode_audio_to_base64
            (float32_to_int16 (FloatArr f (map fst rows)))).
  split; [reflexivity |]. split; [| split].
  - apply decode_encode. now apply float32_to_int16_is_int16.
  - reflexivity.
  - intros rows' frames' E. unfold sounddevice_to_base64. now rewrite E.
Qed.

Lemma sounddevice_sends_channel_0_witness :
  exists s,
    sounddevice_to_base64
      (Sd2D binary32 [((1 # 2)%Q, [(1 # 4)%Q]); ((-1 # 2)%Q, [0%Q])]) 2
    = Ok s /\
    decode_base64_to_audio s
    = Ok (float32_to_int16 (FloatArr binary32 [(1 # 2)%Q; (-1 # 2)%Q])) /\
    sounddevice_to_base64
      (Sd1D (FloatArr binary32 [(1 # 2)%Q; (-1 # 2)%Q])) 2 = Ok s /\
    forall rows' frames',
      map fst rows' = [(1 # 2)%Q; (-1 # 2)%Q] ->
      sounddevice_to_base64 (Sd2D binary32 rows') frames' = Ok s.
Proof.
  apply (sounddevice_sends_channel_0
           binary32 [((1 # 2)%Q, [(1 # 4)%Q]); ((-1 # 2)%Q, [0%Q])] 2).
  left. reflexivity.
Defined.

(** X28.  At another rate than 24000 Hz,
    [convert_from_gemini_output_format] on a non-empty reply resamples and
    returns: for ['int16'] fixed-point samples within [-32767, 32767], for
    any other [output_dtype] a double-precision array (also when ['float32']
    was asked for). *)
Theorem convert_from_output_format_resampled
        (buf : list Z) (output_dtype : string) (target_sr : Z) :
  Forall is_int16 buf -> buf <> [] ->
  0 < target_sr -> target_sr <> OUTPUT_SAMPLE_RATE ->
  Z.of_nat (List.length buf) * target_sr < 2 ^ 51 ->
  exists out,
    convert_from_gemini_output_format
      (encode_audio_to_base64 buf) output_dtype target_sr = Ok out /\
    (output_dtype = "int16"%string ->
     exists xs, out = Int16Arr xs /\
                Forall (fun v => -32767 <= v <= 32767) xs) /\
    (output_dtype <> "int16"%string ->
     exists ys, out = FloatArr binary64 ys) /\
    let n := Z.of_nat (List.length buf) * target_sr / OUTPUT_SAMPLE_RATE in
    n - 1 <= len out <= n.
Proof.
  intros Hb Hne Ht Hneq Hnt.
  set (a := FloatArr binary32 (int16_to_float32 buf)).
  assert (La : len a = Z.of_nat (List.length buf)).
  { unfold a, int16_to_float32. cbn [len]. now rewrite length_map. }
  assert (Hpos : 0 < len a).
  { rewrite La. destruct buf; [contradiction | cbn [List.length]; lia]. }
  destruct (new_length_ok (len a) OUTPUT_SAMPLE_RATE target_sr
              ltac:(lia) ltac:(unfold OUTPUT_SAMPLE_RATE; lia) ltac:(lia)
              ltac:(rewrite La; exact Hnt))
    as (duration & new_length & Hd & Hn & Hn0 & Hnl).
  destruct (resample_audio_ok a OUTPUT_SAMPLE_RATE target_sr duration
              new_length ltac:(congruence) Hpos Hd Hn Hn0)
    as (ys & Hys & Hlen).
  assert (Hl : Z.of_nat (List.length buf) * target_sr / OUTPUT_SAMPLE_RATE - 1
               <= new_length
               <= Z.of_nat (List.length buf) * target_sr / OUTPUT_SAMPLE_RATE).
  { rewrite <- La. destruct Hnl as [-> | [_ ->]]; lia. }
  assert (Hcall : forall dt,
             convert_from_gemini_output_format
               (encode_audio_to_base64 buf) dt target_sr
             = if String.eqb dt "int16"
               then Ok (Int16Arr (float32_to_int16 (FloatArr binary64 ys)))
               else Ok (FloatArr binary64 ys)).
  { intros dt. unfold convert_from_gemini_output_format.
    rewrite (decode_encode buf Hb). cbn [bind].
    destruct (target_sr =? OUTPUT_SAMPLE_RATE) eqn:E;
      [apply Z.eqb_eq in E; contradiction |].
    cbn [negb]. fold a. rewrite Hys. reflexivity. }
  destruct (String.eqb output_dtype "int16") eqn:Edt.
  - exists (Int16Arr (float32_to_int16 (FloatArr binary64 ys))).
    rewrite Hcall, Edt. split; [reflexivity |]. split; [| split].
    + intros _. eexists. split; [reflexivity |].
      unfold float32_to_int16. cbn [values float_format].
      apply Forall_map, Forall_map, Forall_forall. intros x _.
      destruct (fixed_sample binary64 ltac:(right; left; reflexivity) x)
        as [E R].
      rewrite E. exact R.
    + intros C. apply String.eqb_eq in Edt. contradiction.
    + cbn zeta. cbn [len]. unfold float32_to_int16.
      rewrite !length_map. cbn [values]. rewrite Hlen. exact Hl.
  - exists (FloatArr binary64 ys).
    rewrite Hcall, Edt. split; [reflexivity |]. split; [| split].
    + intros C. apply String.eqb_neq in Edt. contradiction.
    + intros _. now exists ys.
    + cbn zeta. cbn [len]. rewrite Hlen. exact Hl.
Qed.

Lemma convert_from_output_format_resampled_witness :
  exists out,
    convert_from_gemini_output_format
      (encode_audio_to_base64 [100; -200; 300]) "int16" 16000 = Ok out /\
    ("int16"%string = "int16"%string ->
     exists xs, out = Int16Arr xs /\
                Forall (fun v => -32767 <= v <= 32767) xs) /\
    ("int16"%string <> "int16"%string ->
     exists ys, out = FloatArr binary64 ys) /\
    2 - 1 <= len out <= 2.
Proof.
  apply (convert_from_output_format_resampled [100; -200; 300] "int16" 16000).
  - repeat constructor; unfold is_int16; lia.
  - discriminate.
  - lia.
  - discriminate.
  - cbn. lia.
Defined.
